(** * ticktick-to-omnifocus: a shallow embedding of [index.js]

    The script reads a TickTick CSV backup, turns every row into a TaskPaper
    entry and copies the text, grouped by project, to the clipboard.  This
    file embeds the functions of [index.js] one by one and proves what the
    written specification says about them.

    Modelling choices, all taken from the JavaScript semantics the script
    runs under:
    - a JavaScript string is a sequence of UTF-16 code units: [jsstring] is
      a list of [N]; [lit] turns an ASCII literal into one;
    - a property read gives a [value]: [undefined] when the row has no such
      key, a string otherwise ([csvtojson] is run without type checking, so
      every cell is a string); [null] only appears as a fallback;
    - the libraries the script calls ([luxon], [indent-string]) are not part
      of the repository: [luxon] is an interface ([Luxon]) the functions
      are parametric in, [indentString] is written out from its contract;
    - case mapping ([toLowerCase], [toUpperCase]) is the Basic Latin one;
      code units outside it are carried unchanged. *)

From Stdlib Require Import List Bool Arith NArith ZArith Lia.
From Stdlib Require Import Strings.String Strings.Ascii.
From Stdlib Require Import Permutation Sorted.
Import ListNotations.

Local Open Scope N_scope.

(** ** Strings *)

Abbreviation codeunit := N (only parsing).
Abbreviation jsstring := (list N) (only parsing).

Definition lit (s : string) : jsstring :=
  map N_of_ascii (list_ascii_of_string s).
Arguments lit s%_string.

Fixpoint eqbs (a b : jsstring) : bool :=
  match a, b with
  | [], [] => true
  | x :: a', y :: b' => (x =? y) && eqbs a' b'
  | _, _ => false
  end.

(** [a < b] on two strings: code unit by code unit. *)
Fixpoint ltbs (a b : jsstring) : bool :=
  match a, b with
  | _, [] => false
  | [], _ :: _ => true
  | x :: a', y :: b' =>
      if x <? y then true else if y <? x then false else ltbs a' b'
  end.

(** ECMAScript LineTerminator: LF, CR, LS, PS. *)
Definition isLineTerminator (c : codeunit) : bool :=
  (c =? 10) || (c =? 13) || (c =? 0x2028) || (c =? 0x2029).

(** ECMAScript WhiteSpace: TAB, VT, FF, SP, NBSP, ZWNBSP and the space
    separators. *)
Definition isWhiteSpace (c : codeunit) : bool :=
  (c =? 9) || (c =? 11) || (c =? 12) || (c =? 32) || (c =? 0xA0)
  || (c =? 0xFEFF) || (c =? 0x1680) || ((0x2000 <=? c) && (c <=? 0x200A))
  || (c =? 0x202F) || (c =? 0x205F) || (c =? 0x3000).

(** What [String.prototype.trim] strips and what [\s] matches. *)
Definition isSpace (c : codeunit) : bool :=
  isWhiteSpace c || isLineTerminator c.

Fixpoint dropWhile {A} (p : A -> bool) (l : list A) : list A :=
  match l with
  | [] => []
  | x :: t => if p x then dropWhile p t else l
  end.

Definition trimStart (s : jsstring) : jsstring := dropWhile isSpace s.
Definition trimEnd (s : jsstring) : jsstring := rev (dropWhile isSpace (rev s)).
Definition trim (s : jsstring) : jsstring := trimEnd (trimStart s).

Definition isEmpty (s : jsstring) : bool :=
  match s with [] => true | _ => false end.

Definition toLowerUnit (c : codeunit) : codeunit :=
  if (65 <=? c) && (c <=? 90) then c + 32 else c.
Definition toUpperUnit (c : codeunit) : codeunit :=
  if (97 <=? c) && (c <=? 122) then c - 32 else c.
Definition toLowerCase (s : jsstring) : jsstring := map toLowerUnit s.

(** [s.split(sep)] for a one-unit separator: never the empty array. *)
Fixpoint split (sep : codeunit) (s : jsstring) : list jsstring :=
  match s with
  | [] => [[]]
  | c :: t =>
      if c =? sep then [] :: split sep t
      else match split sep t with
           | w :: ws => (c :: w) :: ws
           | [] => [[c]]
           end
  end.

(** [parts.join(sep)]. *)
Fixpoint join (sep : jsstring) (parts : list jsstring) : jsstring :=
  match parts with
  | [] => []
  | [x] => x
  | x :: rest => x ++ sep ++ join sep rest
  end.

Fixpoint mapi_from {A B} (i : nat) (f : A -> nat -> B) (l : list A) : list B :=
  match l with
  | [] => []
  | x :: t => f x i :: mapi_from (S i) f t
  end.
Definition mapi {A B} (f : A -> nat -> B) (l : list A) : list B :=
  mapi_from 0 f l.

Fixpoint span {A} (p : A -> bool) (l : list A) : list A * list A :=
  match l with
  | [] => ([], [])
  | x :: t => if p x then let (a, b) := span p t in (x :: a, b) else ([], l)
  end.

Definition newline : jsstring := [10].
Definition tabulation : jsstring := [9].

(** [line.replace(/^c/, "")]: drops the unit [c] when the line starts with it. *)
Definition replaceLeading (c : codeunit) (line : jsstring) : jsstring :=
  match line with
  | x :: t => if x =? c then t else line
  | [] => []
  end.

(** ** Values *)

Inductive value :=
| undefined
| null
| str (s : jsstring).

(** [String(v)] and [`${v}`]. *)
Definition ToString (v : value) : jsstring :=
  match v with
  | undefined => lit "undefined"
  | null => lit "null"
  | str s => s
  end.

(** [!!v]. *)
Definition truthy (v : value) : bool :=
  match v with
  | str (_ :: _) => true
  | _ => false
  end.

(** [a || b]. *)
Definition orElse (a b : value) : value := if truthy a then a else b.

(** *** Numbers, as far as the script looks at them

    The script only compares the numeric value of a cell with [0], so the
    conversion keeps the sign class of [Number(s)]. *)

Inductive numclass := NaN | Zero | Positive | Negative.

Definition isDigit (c : codeunit) : bool := (48 <=? c) && (c <=? 57).
Definition isHexDigit (c : codeunit) : bool :=
  isDigit c || ((65 <=? c) && (c <=? 70)) || ((97 <=? c) && (c <=? 102)).
Definition isOctalDigit (c : codeunit) : bool := (48 <=? c) && (c <=? 55).
Definition isBinaryDigit (c : codeunit) : bool := (c =? 48) || (c =? 49).

Definition digitsValue (ds : jsstring) : N :=
  fold_left (fun acc c => acc * 10 + (c - 48)) ds 0.

(** The class of a non-decimal literal's digits: at least one digit, all of
    the radix. *)
Definition radixClass (ok : codeunit -> bool) (ds : jsstring) : numclass :=
  if isEmpty ds || negb (forallb ok ds) then NaN
  else if forallb (N.eqb 48) ds then Zero else Positive.

Definition unsignedDigits (ds : jsstring) : option Z :=
  if isEmpty ds || negb (forallb isDigit ds) then None
  else Some (Z.of_N (digitsValue ds)).

(** ExponentPart, or nothing: the exponent it denotes. *)
Definition exponentPart (r : jsstring) : option Z :=
  match r with
  | [] => Some 0%Z
  | c :: r' =>
      if (c =? 101) || (c =? 69) then
        match r' with
        | 43 :: ds => unsignedDigits ds
        | 45 :: ds => option_map Z.opp (unsignedDigits ds)
        | ds => unsignedDigits ds
        end
      else None
  end.

(** The double nearest to [m * 10^e] is [0] exactly when the number is at
    most half of the least positive double, [2^-1075]. *)
Definition magnitudeClass (m : N) (e : Z) : numclass :=
  if m =? 0 then Zero
  else if (e <? 0)%Z
       then if (Z.of_N m * 2 ^ 1075 <=? 10 ^ (- e))%Z then Zero else Positive
       else Positive.

(** StrUnsignedDecimalLiteral. *)
Definition unsignedDecimalClass (s : jsstring) : numclass :=
  if eqbs s (lit "Infinity") then Positive
  else
    let (ip, r1) := span isDigit s in
    let '(fp, r2) :=
      match r1 with
      | 46 :: r => span isDigit r
      | _ => ([], r1)
      end in
    if isEmpty ip && isEmpty fp then NaN
    else match exponentPart r2 with
         | None => NaN
         | Some e =>
             magnitudeClass (digitsValue (ip ++ fp)) (e - Z.of_nat (List.length fp))
         end.

Definition negateClass (c : numclass) : numclass :=
  match c with
  | Positive => Negative
  | Negative => Positive
  | other => other
  end.

(** [Number(s)] for a string (StringToNumber), up to its sign class. *)
Definition StringToNumber (s : jsstring) : numclass :=
  match trim s with
  | [] => Zero
  | 48 :: x :: ds =>
      if (x =? 120) || (x =? 88) then radixClass isHexDigit ds
      else if (x =? 111) || (x =? 79) then radixClass isOctalDigit ds
      else if (x =? 98) || (x =? 66) then radixClass isBinaryDigit ds
      else unsignedDecimalClass (48 :: x :: ds)
  | 43 :: ds => unsignedDecimalClass ds
  | 45 :: ds => negateClass (unsignedDecimalClass ds)
  | ds => unsignedDecimalClass ds
  end.

Definition ToNumber (v : value) : numclass :=
  match v with
  | undefined => NaN
  | null => Zero
  | str s => StringToNumber s
  end.

(** [v != 0]: [undefined] and [null] equal only each other; a string is
    compared through its number. *)
Definition looseNotEqualZero (v : value) : bool :=
  match v with
  | str s => match StringToNumber s with Zero => false | _ => true end
  | _ => true
  end.

(** [v > 0]. *)
Definition greaterThanZero (v : value) : bool :=
  match ToNumber v with Positive => true | _ => false end.

(** [a < b]: two strings are compared as strings, anything else through
    its number; the only numbers met are [NaN], [0] and a cell's. *)
Definition lessThan (a b : value) : bool :=
  match a, b with
  | str x, str y => ltbs x y
  | undefined, _ | _, undefined => false
  | null, null => false
  | null, str y => match StringToNumber y with Positive => true | _ => false end
  | str x, null => match StringToNumber x with Negative => true | _ => false end
  end.
Definition greaterThan (a b : value) : bool := lessThan b a.

(** ** Rows *)

(** A parsed row: its own keys in creation order, each with its cell. *)
Definition row := list (jsstring * jsstring).

Definition Object_keys (o : row) : list jsstring := map fst o.

(** [o[key]]. *)
Fixpoint get (o : row) (key : jsstring) : value :=
  match o with
  | [] => undefined
  | (k, v) :: rest => if eqbs k key then str v else get rest key
  end.

Definition prop (o : row) (name : string) : value := get o (lit name).
Arguments prop o name%_string.

(** ** General helpers *)

(** [cleanupStrings(value, fallback)]. *)
Definition cleanupStrings (v : value) (fallback : value) : value :=
  orElse (str (trim (ToString v))) fallback.

(** [cleanupStrings(value)]: the default fallback is the empty string. *)
Definition cleanupStrings1 (v : value) : value := cleanupStrings v (str []).

(** The part of [luxon] the script calls. *)
Record Luxon := {
  DateTime : Type;
  fromISO : jsstring -> DateTime;
  isValid : DateTime -> bool;
  toUTC : DateTime -> DateTime;
  setZone : DateTime -> value -> DateTime;
  toFormat : DateTime -> jsstring -> jsstring
}.

Definition dateFormat : jsstring := lit "MM/dd/yyyy h:mm:ss a".

(** [reformatDates(ttDateTime, ttTimezone)]. *)
Definition reformatDates (L : Luxon) (ttDateTime ttTimezone : value) : value :=
  if negb (truthy ttDateTime)
     || negb (isValid L (fromISO L (ToString ttDateTime)))
  then null
  else
    let parsedToUTC := toUTC L (fromISO L (ToString ttDateTime)) in
    let utcToLocal := setZone L parsedToUTC ttTimezone in
    str (toFormat L utcToLocal dateFormat).

(** [keyToCamelCase(key)]. *)
Definition keyToCamelCase (key : jsstring) : jsstring :=
  List.concat
    (mapi (fun w i =>
             match i with
             | O => w
             | S _ => match w with
                      | [] => []
                      | c :: rest => toUpperUnit c :: rest
                      end
             end)
          (split 32 (toLowerCase key))).

(** ** Conversion helpers *)

Section Conversion.

Variable L : Luxon.

(** [tpDone(item)]. *)
Definition tpDone (item : row) : jsstring :=
  let completed := looseNotEqualZero (prop item "status") in
  let completionDate :=
    reformatDates L (prop item "completedTime") (prop item "timezone") in
  if completed && truthy completionDate
  then lit " @done(" ++ ToString completionDate ++ lit ")"
  else [].

(** [tpDefer(item)]. *)
Definition tpDefer (item : row) : jsstring :=
  let deferDate :=
    reformatDates L (prop item "createdTime") (prop item "timezone") in
  if truthy deferDate
  then lit " @defer(" ++ ToString deferDate ++ lit ")"
  else [].

(** [tpDue(item)]. *)
Definition tpDue (item : row) : jsstring :=
  let dueDate := reformatDates L (prop item "dueDate") (prop item "timezone") in
  if truthy dueDate
  then lit " @due(" ++ ToString dueDate ++ lit ")"
  else [].

End Conversion.

(** [tpFlagged(item)]. *)
Definition tpFlagged (item : row) : jsstring :=
  if greaterThanZero (prop item "priority") then lit " @flagged" else [].

(** The bullet the checklist export puts before an item, U+25AA. *)
Definition blackSmallSquare : codeunit := 0x25AA.

(** The arrow function [tpNote] maps over the lines. *)
Definition stripBullets (line : jsstring) : jsstring :=
  replaceLeading blackSmallSquare (replaceLeading 45 line).

(** [tpNote(item)]. *)
Definition tpNote (item : row) : jsstring :=
  if truthy (prop item "content")
  then join newline
         (map stripBullets
            (split 10 (ToString (cleanupStrings1 (prop item "content")))))
  else [].

(** [tpProject(item)]. *)
Definition tpProject (item : row) : jsstring :=
  let folder :=
    if truthy (prop item "folderName")
    then cleanupStrings1 (prop item "folderName") else str [] in
  let list :=
    if truthy (prop item "listName")
    then cleanupStrings1 (prop item "listName") else str [] in
  if truthy (orElse folder list)
  then ToString
         (cleanupStrings1 (str (ToString folder ++ lit " " ++ ToString list)))
  else [].

(** [tpRepeat(item)]. *)
Definition tpRepeat (item : row) : jsstring :=
  let repeatRule := cleanupStrings (prop item "repeat") null in
  if truthy repeatRule
  then lit " @repeat-method(fixed) @repeat-rule(" ++ ToString repeatRule
       ++ lit ")"
  else [].

(** [tpTags(item)]. *)
Definition tpTags (item : row) : jsstring :=
  let tags := cleanupStrings1 (prop item "tags") in
  let priority :=
    if truthy (prop item "priority")
    then str (lit "priority-" ++ ToString (prop item "priority"))
    else str [] in
  if truthy (orElse tags priority)
  then lit " @tags(" ++ ToString tags
       ++ (if truthy tags && truthy priority then lit ", " else [])
       ++ ToString priority ++ lit ")"
  else [].

(** [tpTitle(item)]. *)
Definition tpTitle (item : row) : jsstring :=
  ToString (cleanupStrings1 (prop item "title")).

(** ** Organization helpers *)

(** The string the comparator computes for a row. *)
Definition sortProjectName (a : row) : value :=
  cleanupStrings1
    (str (ToString (prop a "folderName") ++ lit " "
          ++ ToString (prop a "listName"))).

(** [sortByProjectAndCreation(a, b)]. *)
Definition sortByProjectAndCreation (a b : row) : Z :=
  let aProjectName := sortProjectName a in
  let bProjectName := sortProjectName b in
  if lessThan aProjectName bProjectName then (-1)%Z
  else if greaterThan aProjectName bProjectName then 1%Z
  else if lessThan (prop a "createdTime") (prop b "createdTime") then (-1)%Z
  else if greaterThan (prop a "createdTime") (prop b "createdTime") then 1%Z
  else 0%Z.

(** [Array.prototype.sort] with a comparator.  The language fixes the
    result when the comparator is consistent: the stable sorted
    arrangement, which this insertion computes; with an inconsistent
    comparator the order is left to the engine. *)
Fixpoint insertSorted {A} (cmp : A -> A -> Z) (x : A) (l : list A) : list A :=
  match l with
  | [] => [x]
  | y :: t => if (0 <? cmp x y)%Z then y :: insertSorted cmp x t else x :: l
  end.

Definition Array_sort {A} (cmp : A -> A -> Z) (l : list A) : list A :=
  fold_right (insertSorted cmp) [] l.

(** The comparator does not put [a] after [b]. *)
Definition notAfter {A} (cmp : A -> A -> Z) (a b : A) : Prop :=
  (0 <? cmp a b)%Z = false.

(** A line holds something else than white space before it ends. *)
Fixpoint lineHasInk (s : jsstring) : bool :=
  match s with
  | [] => false
  | c :: t =>
      if isLineTerminator c then false
      else if isSpace c then lineHasInk t else true
  end.

(** [s.repeat(count)]. *)
Fixpoint repeatString (s : jsstring) (count : nat) : jsstring :=
  match count with
  | O => []
  | S n => s ++ repeatString s n
  end.

(** [pad] put before every line of [s] that holds something else than
    white space; [lineStart] says whether [s] starts a line. *)
Fixpoint indentFrom (pad : jsstring) (lineStart : bool) (s : jsstring)
  : jsstring :=
  match s with
  | [] => []
  | c :: t =>
      (if lineStart && lineHasInk s then pad else [])
      ++ c :: indentFrom pad (isLineTerminator c) t
  end.

(** Modelled from the spec: the [indent-string] package is not part of the
    sources; section 6 of the specification fixes tab-indented entries and
    note lines, and the script passes the tab as the indent.
    [indentString(s, count, indent)] puts [count] copies of [indent] before
    every line of [s] that is not empty or white space only (the package's
    [/^(?!\s*$)/gm]). *)
Definition indentString (s : jsstring) (count : nat) (indent : jsstring)
  : jsstring :=
  indentFrom (repeatString indent count) true s.

(** The accumulator of the grouping: an object created by [{}], its own
    properties in creation order, each an array of blocks. *)
Definition projects := list (jsstring * list jsstring).

Fixpoint getOwn (acc : projects) (key : jsstring) : option (list jsstring) :=
  match acc with
  | [] => None
  | (k, v) :: rest => if eqbs k key then Some v else getOwn rest key
  end.

(** [acc[key] = v]: an own property keeps its place, a new one is created
    last. *)
Fixpoint setOwn (acc : projects) (key : jsstring) (v : list jsstring)
  : projects :=
  match acc with
  | [] => [(key, v)]
  | (k, old) :: rest =>
      if eqbs k key then (k, v) :: rest else (k, old) :: setOwn rest key v
  end.

(** What an object created by [{}] inherits from [Object.prototype]: each
    of these reads as a function or an object, never as an array. *)
Definition objectPrototypeKeys : list jsstring :=
  [ lit "constructor"; lit "__defineGetter__"; lit "__defineSetter__";
    lit "hasOwnProperty"; lit "__lookupGetter__"; lit "__lookupSetter__";
    lit "isPrototypeOf"; lit "propertyIsEnumerable"; lit "toString";
    lit "valueOf"; lit "__proto__"; lit "toLocaleString" ].

Definition inherited (key : jsstring) : bool :=
  existsb (eqbs key) objectPrototypeKeys.

Inductive exn := TypeError.

Inductive result (A : Type) :=
| Ok (a : A)
| Throw (e : exn).
Arguments Ok {A} a.
Arguments Throw {A} e.

Definition bind {A B} (m : result A) (f : A -> result B) : result B :=
  match m with
  | Ok a => f a
  | Throw e => Throw e
  end.

(** [array.reduce(f, init)] with a callback that may throw. *)
Fixpoint reduce {A B} (f : B -> A -> result B) (l : list A) (init : B)
  : result B :=
  match l with
  | [] => Ok init
  | x :: t => bind (f init x) (reduce f t)
  end.

Section Grouping.

Variable L : Luxon.

(** The block [listTasksByProject] pushes for a task. *)
Definition taskBlock (task : row) : jsstring :=
  let dates := lit " " ++ tpDefer L task ++ tpDue L task ++ tpDone L task in
  let meta := lit " " ++ tpFlagged task ++ tpRepeat task ++ tpTags task in
  let note := indentString (tpNote task) 1 tabulation in
  let each :=
    trim (newline ++ lit "- " ++ tpTitle task ++ dates ++ meta ++ newline
          ++ note) in
  indentString each 1 tabulation.

(** [listTasksByProject(acc, task)].  [acc[projectName]] reads an own
    property or an inherited one; pushing onto an inherited one throws. *)
Definition listTasksByProject (acc : projects) (task : row) : result projects :=
  let projectName := trim (tpProject task) in
  let acc1 :=
    match getOwn acc projectName with
    | Some _ => acc
    | None =>
        if inherited projectName then acc
        else setOwn acc projectName [newline ++ projectName ++ lit ":"]
    end in
  let output := taskBlock task in
  match getOwn acc1 projectName with
  | Some blocks => Ok (setOwn acc1 projectName (blocks ++ [output]))
  | None => Throw TypeError
  end.

End Grouping.

(** ** CSV to JSON conversion *)

(** The keys of [errors]. *)
Inductive errorKey := path | extension | format.

(** [headers]: the names [csvtojson] gives the cells of a line, in order. *)
Definition headers : list jsstring :=
  map lit
    [ "folderName"; "listName"; "title"; "tags"; "content"; "isCheckList";
      "startDate"; "dueDate"; "reminder"; "repeat"; "priority"; "status";
      "createdTime"; "completedTime"; "order"; "timezone"; "isAllDay";
      "isFloating"; "columnName"; "columnOrder"; "viewMode" ]%string.

(** The canonical array indices, [0] to [2^32 - 2], written without sign or
    leading zero. *)
Definition arrayIndex (key : jsstring) : option N :=
  if isEmpty key || negb (forallb isDigit key) then None
  else match key with
       | 48 :: _ :: _ => None
       | _ => if digitsValue key <=? 4294967294
              then Some (digitsValue key) else None
       end.

Definition isArrayIndex (key : jsstring) : bool :=
  match arrayIndex key with Some _ => true | None => false end.

Definition indexOf (key : jsstring) : N :=
  match arrayIndex key with Some n => n | None => 0 end.

Fixpoint insertByIndex {A} (e : jsstring * A) (l : list (jsstring * A))
  : list (jsstring * A) :=
  match l with
  | [] => [e]
  | y :: t =>
      if indexOf (fst y) <? indexOf (fst e) then y :: insertByIndex e t
      else e :: l
  end.

(** The order in which an object lists its own properties: the array
    indices by ascending value, then the other keys by creation. *)
Definition ownPropertyOrder {A} (o : list (jsstring * A))
  : list (jsstring * A) :=
  fold_right insertByIndex [] (filter (fun e => isArrayIndex (fst e)) o)
  ++ filter (fun e => negb (isArrayIndex (fst e))) o.

Definition Object_values {A} (o : list (jsstring * A)) : list A :=
  map snd (ownPropertyOrder o).

(** [array.findIndex(p)]: [-1] when no element passes. *)
Fixpoint findIndex {A} (p : A -> bool) (l : list A) : Z :=
  match l with
  | [] => (-1)%Z
  | x :: t =>
      if p x then 0%Z
      else let i := findIndex p t in if (i <? 0)%Z then (-1)%Z else (i + 1)%Z
  end.

(** What [array.splice(start)] returns: the elements from [start] on. *)
Definition splice {A} (l : list A) (start : Z) : list A :=
  if (start <? 0)%Z
  then skipn (Z.to_nat (Z.max 0 (Z.of_nat (List.length l) + start))) l
  else skipn (Z.to_nat start) l.

(** The callback of [findIndex] in [parseJson].  A key of the row always
    reads as a string. *)
Definition isHeaderRow (task : row) : bool :=
  fold_left (fun acc each => acc && each)
    (map (fun key =>
            match get task key with
            | str cell => eqbs key (keyToCamelCase cell)
            | _ => false
            end)
         (Object_keys task))
    true.

Definition headerRowIndex (json : list row) : Z := findIndex isHeaderRow json.

(** The rows [parseJson] goes on with. *)
Definition dataSet (json : list row) : list row :=
  splice json (headerRowIndex json + 1).

Definition blankLine : jsstring := [10; 10].

(** The text [parseJson] builds from the sorted rows. *)
Definition render (L : Luxon) (rows : list row) : result jsstring :=
  bind (reduce (listTasksByProject L) rows [])
       (fun projects =>
          Ok (join blankLine (map (join blankLine) (Object_values projects)))).

(** What a run of [parseJson] leaves behind: the errors reported, and the
    text handed to [copy], unless an exception ended the run before. *)
Record outcome := {
  reported : list errorKey;
  copied : result jsstring
}.

(** [parseJson(json)]. *)
Definition parseJson (L : Luxon) (json : list row) : outcome :=
  {| reported := if (headerRowIndex json <? 0)%Z then [format] else [];
     copied := render L (Array_sort sortByProjectAndCreation (dataSet json)) |}.

(** ** The entry point *)

Section Main.

Variable L : Luxon.

(** Two functions of the platform: [path.extname] of Node, and the
    [fromString] of a [csvtojson] converter built with the script's options
    ([noheader], the header list).  The promise it returns resolves to the
    rows, or to nothing, or is rejected. *)
Variable extname : jsstring -> jsstring.
Variable fromString : list jsstring -> value -> result (option (list row)).

(** [convertCsvToJson(data)]. *)
Definition convertCsvToJson (data : value) : result (option (list row)) :=
  fromString headers data.

(** What a run of the script leaves behind: the errors reported in order,
    the text on the clipboard if [copy] was reached, the exception that
    ended the run if one did. *)
Record run := {
  errorsReported : list errorKey;
  clipboard : option jsstring;
  exception : option exn
}.

(** The callback of [fs.readFile]: [err] says whether the read failed,
    [data] is the content read. *)
Definition readFileCallback (file : jsstring) (err : bool) (data : value)
  : run :=
  let afterPath := if err then [path] else [] in
  let afterExtension :=
    afterPath ++ (if eqbs (extname file) (lit ".csv") then [] else [extension])
  in
  match convertCsvToJson data with
  | Throw e =>
      {| errorsReported := afterExtension; clipboard := None;
         exception := Some e |}
  | Ok None =>
      {| errorsReported := afterExtension; clipboard := None;
         exception := None |}
  | Ok (Some result) =>
      let parsed := parseJson L result in
      {| errorsReported := afterExtension ++ reported parsed;
         clipboard := match copied parsed with
                      | Ok text => Some text
                      | Throw _ => None
                      end;
         exception := match copied parsed with
                      | Ok _ => None
                      | Throw e => Some e
                      end |}
  end.

End Main.

(** ** A small [luxon] to run the script on

    An executable instance of [Luxon] for worked inputs.  It reads the
    extended calendar form of ISO 8601 ([YYYY-MM-DD], then [THH:MM], seconds
    and a fraction if given, then [Z] or a numeric offset if given), keeps
    an instant as milliseconds since the epoch, and knows the zones of its
    environment: the system's, [utc], [utc+h:mm], and the names of a table.
    As [luxon] documents, a zone it does not know gives an invalid
    [DateTime], and an invalid [DateTime] formats as [Invalid DateTime]. *)

Module Clock.

Local Open Scope Z_scope.

Record environment := {
  systemOffset : Z;
  zoneTable : list (jsstring * Z)
}.

Record instant := {
  valid : bool;
  millis : Z;
  offset : Z
}.

Definition invalid : instant := {| valid := false; millis := 0; offset := 0 |}.

Definition daysFromCivil (y m d : Z) : Z :=
  let y' := if m <=? 2 then y - 1 else y in
  let era := y' / 400 in
  let yoe := y' - era * 400 in
  let doy := (153 * (if 2 <? m then m - 3 else m + 9) + 2) / 5 + d - 1 in
  let doe := yoe * 365 + yoe / 4 - yoe / 100 + doy in
  era * 146097 + doe - 719468.

(** Year, month and day of a day number. *)
Definition civilFromDays (days : Z) : Z * Z * Z :=
  let z := days + 719468 in
  let era := z / 146097 in
  let doe := z - era * 146097 in
  let yoe := (doe - doe / 1460 + doe / 36524 - doe / 146096) / 365 in
  let doy := doe - (365 * yoe + yoe / 4 - yoe / 100) in
  let mp := (5 * doy + 2) / 153 in
  let d := doy - (153 * mp + 2) / 5 + 1 in
  let m := if mp <? 10 then mp + 3 else mp - 9 in
  ((if m <=? 2 then yoe + era * 400 + 1 else yoe + era * 400), m, d).

Definition isLeap (y : Z) : bool :=
  ((y mod 4 =? 0) && negb (y mod 100 =? 0)) || (y mod 400 =? 0).

Definition daysInMonth (y m : Z) : Z :=
  if m =? 2 then (if isLeap y then 29 else 28)
  else if (m =? 4) || (m =? 6) || (m =? 9) || (m =? 11) then 30 else 31.

(** [n] digits from the front of [s]: their value and what follows. *)
Fixpoint digits (n : nat) (acc : Z) (s : jsstring) : option (Z * jsstring) :=
  match n with
  | O => Some (acc, s)
  | S n' =>
      match s with
      | c :: t =>
          if isDigit c then digits n' (acc * 10 + (Z.of_N c - 48)) t else None
      | [] => None
      end
  end.

Definition expect (c : codeunit) (s : jsstring) : option jsstring :=
  match s with
  | x :: t => if (x =? c)%N then Some t else None
  | [] => None
  end.

Definition andThen {A B} (m : option A) (f : A -> option B) : option B :=
  match m with
  | Some a => f a
  | None => None
  end.

(** The offset in minutes a zone designator stands for; none is the
    system's. *)
Definition parseOffset (system : Z) (s : jsstring) : option Z :=
  match s with
  | [] => Some system
  | [90%N] => Some 0
  | sign :: r =>
      if (sign =? 43)%N || (sign =? 45)%N then
        andThen (digits 2 0 r) (fun '(h, r1) =>
          let r2 := match r1 with 58%N :: t => t | _ => r1 end in
          andThen (match r2 with
                   | [] => Some (0, [])
                   | _ => digits 2 0 r2
                   end) (fun '(m, r3) =>
            match r3 with
            | [] => if (h <? 24) && (m <? 60)
                    then Some ((if (sign =? 45)%N then -1 else 1) * (h * 60 + m))
                    else None
            | _ => None
            end))
      else None
  end.

(** Milliseconds of the day and the zone offset of what follows the date. *)
Definition parseTime (system : Z) (s : jsstring) : option (Z * Z) :=
  match s with
  | [] => Some (0, system)
  | t :: r =>
      if (t =? 84)%N then
        andThen (digits 2 0 r) (fun '(h, r1) =>
        andThen (expect 58%N r1) (fun r2 =>
        andThen (digits 2 0 r2) (fun '(m, r3) =>
          let '(sec, r5) :=
            match andThen (expect 58%N r3) (digits 2 0) with
            | Some (sec, r4) => (sec, r4)
            | None => (0, r3)
            end in
          let '(ms, r7) :=
            match andThen (expect 46%N r5) (digits 3 0) with
            | Some (ms, r6) => (ms, r6)
            | None => (0, r5)
            end in
          andThen (parseOffset system r7) (fun off =>
            if (h <? 24) && (m <? 60) && (sec <? 60)
            then Some (((h * 60 + m) * 60 + sec) * 1000 + ms, off)
            else None))))
      else None
  end.

Definition parseISO (system : Z) (s : jsstring) : option Z :=
  andThen (digits 4 0 s) (fun '(y, r1) =>
  andThen (expect 45%N r1) (fun r2 =>
  andThen (digits 2 0 r2) (fun '(m, r3) =>
  andThen (expect 45%N r3) (fun r4 =>
  andThen (digits 2 0 r4) (fun '(d, r5) =>
  andThen (parseTime system r5) (fun '(ms, off) =>
    if (1 <=? m) && (m <=? 12) && (1 <=? d) && (d <=? daysInMonth y m)
    then Some (daysFromCivil y m d * 86400000 + ms - off * 60000)
    else None)))))).

Definition readISO (env : environment) (s : jsstring) : instant :=
  match parseISO (systemOffset env) s with
  | Some ms => {| valid := true; millis := ms; offset := systemOffset env |}
  | None => invalid
  end.

Definition inUTC (d : instant) : instant :=
  if valid d then {| valid := true; millis := millis d; offset := 0 |}
  else invalid.

Fixpoint lookupZone (table : list (jsstring * Z)) (name : jsstring)
  : option Z :=
  match table with
  | [] => None
  | (k, off) :: rest => if eqbs k name then Some off else lookupZone rest name
  end.

(** The zone a specifier names, [None] when the environment has none. *)
Definition normalizeZone (env : environment) (zone : value) : option Z :=
  match zone with
  | undefined | null => Some (systemOffset env)
  | str s =>
      let lowered := toLowerCase s in
      if eqbs lowered (lit "default") || eqbs lowered (lit "local")
         || eqbs lowered (lit "system")
      then Some (systemOffset env)
      else if eqbs lowered (lit "utc") || eqbs lowered (lit "gmt") then Some 0
      else match lowered with
           | 117%N :: 116%N :: 99%N :: sign :: r =>
               match parseOffset 0 (sign :: r) with
               | Some off => Some off
               | None => lookupZone (zoneTable env) s
               end
           | _ => lookupZone (zoneTable env) s
           end
  end.

Definition inZone (env : environment) (d : instant) (zone : value) : instant :=
  match normalizeZone env zone with
  | Some off =>
      if valid d then {| valid := true; millis := millis d; offset := off |}
      else invalid
  | None => invalid
  end.

(** The last [width] decimal digits of [n]; the script's fields fit. *)
Fixpoint padded (width : nat) (n : Z) : jsstring :=
  match width with
  | O => []
  | S w => padded w (n / 10) ++ [Z.to_N (48 + n mod 10)]
  end.

Fixpoint decimal (fuel : nat) (n : Z) : jsstring :=
  match fuel with
  | O => []
  | S f => (if n <? 10 then [] else decimal f (n / 10))
           ++ [Z.to_N (48 + n mod 10)]
  end.

(** The format string cut into runs of one letter. *)
Fixpoint runs (s : jsstring) : list (codeunit * nat) :=
  match s with
  | [] => []
  | c :: t =>
      match runs t with
      | (c', n) :: rest => if (c =? c')%N then (c, S n) :: rest
                           else (c, 1%nat) :: (c', n) :: rest
      | [] => [(c, 1%nat)]
      end
  end.

Definition token (local : Z) (run : codeunit * nat) : jsstring :=
  let days := local / 86400000 in
  let ms := local mod 86400000 in
  let '(y, m, d) := civilFromDays days in
  let hour := ms / 3600000 in
  let (c, n) := run in
  if (c =? 77)%N && (n =? 2)%nat then padded 2 m
  else if (c =? 100)%N && (n =? 2)%nat then padded 2 d
  else if (c =? 121)%N && (n =? 4)%nat then padded 4 y
  else if (c =? 104)%N && (n =? 1)%nat
       then decimal 2 (if hour mod 12 =? 0 then 12 else hour mod 12)
  else if (c =? 109)%N && (n =? 2)%nat then padded 2 (ms / 60000 mod 60)
  else if (c =? 115)%N && (n =? 2)%nat then padded 2 (ms / 1000 mod 60)
  else if (c =? 97)%N && (n =? 1)%nat
       then (if hour <? 12 then lit "AM" else lit "PM")
  else repeat c n.

Definition format (d : instant) (fmt : jsstring) : jsstring :=
  if valid d
  then List.concat (map (token (millis d + offset d * 60000)) (runs fmt))
  else lit "Invalid DateTime".

Definition luxon (env : environment) : Luxon :=
  {| DateTime := instant;
     fromISO := readISO env;
     isValid := valid;
     toUTC := inUTC;
     setZone := inZone env;
     toFormat := format |}.

End Clock.

(** An environment on UTC that knows one named zone, without daylight
    saving time. *)
Definition tokyoEnvironment : Clock.environment :=
  {| Clock.systemOffset := 0%Z;
     Clock.zoneTable := [(lit "Asia/Tokyo", 540%Z)] |}.

Definition luxonTokyo : Luxon := Clock.luxon tokyoEnvironment.

(** ** The order the specification speaks of *)

Definition hasCreatedTime (r : row) : bool :=
  match prop r "createdTime" with str _ => true | _ => false end.

Definition valueEqb (a b : value) : bool :=
  match a, b with
  | undefined, undefined | null, null => true
  | str x, str y => eqbs x y
  | _, _ => false
  end.

(** The rows that have the project string and the creation time of [a]. *)
Definition sameSortKey (a b : row) : bool :=
  eqbs (ToString (sortProjectName a)) (ToString (sortProjectName b))
  && valueEqb (prop a "createdTime") (prop b "createdTime").

(** [a] may stand before [b]: its project string is smaller, or the same
    and its creation time is not greater. *)
Definition inOrder (a b : row) : Prop :=
  ltbs (ToString (sortProjectName a)) (ToString (sortProjectName b)) = true
  \/ (ToString (sortProjectName a) = ToString (sortProjectName b)
      /\ lessThan (prop b "createdTime") (prop a "createdTime") = false).

(** ** The grouping the specification speaks of *)

(** The key of the bucket a task goes to. *)
Definition projectKey (task : row) : jsstring := trim (tpProject task).

(** The keys in the order they are first met, after those seen before. *)
Definition encounterOrder (seen keys : list jsstring) : list jsstring :=
  fold_left (fun seen key =>
               if existsb (eqbs key) seen then seen else seen ++ [key])
            keys seen.

(** What a folder or list name contributes to the project string: its
    trimmed text, nothing when the key is missing. *)
Definition nameText (v : value) : jsstring :=
  match v with
  | str s => trim s
  | _ => []
  end.

(** The bucket of a key after a pass over [rows]: the header line, then
    the blocks of the rows of that key, in the order of the pass. *)
Definition groupOf (L : Luxon) (rows : list row) (key : jsstring)
  : jsstring * list jsstring :=
  (key,
   (newline ++ key ++ lit ":")
   :: map (taskBlock L) (filter (fun t => eqbs (projectKey t) key) rows)).

(** An own property of the accumulator is the bucket of its key after a
    pass over [done]. *)
Definition bucketHolds (L : Luxon) (done : list row)
  (e : jsstring * list jsstring) : Prop :=
  snd e = snd (groupOf L done (fst e)).



(** ** The layout the specification speaks of *)

(** The blocks of a bucket: the header line of the project, then the block
    of each of its tasks. *)
Definition bucketBlocks (L : Luxon) (b : jsstring * list row)
  : list jsstring :=
  (newline ++ fst b ++ lit ":") :: map (taskBlock L) (snd b).

Definition startsWithSpace (s : jsstring) : bool :=
  match s with c :: _ => isSpace c | [] => false end.

Definition endsWithSpace (s : jsstring) : bool := startsWithSpace (rev s).

(** An own property of the accumulator holds the bucket of [tasks]. *)
Definition bucketOf (L : Luxon) (entry : jsstring * list jsstring)
  (tasks : list row) : Prop :=
  tasks <> []
  /\ snd entry = bucketBlocks L (fst entry, tasks)
  /\ Forall (fun t => projectKey t = fst entry) tasks.

(** ** Worked inputs *)

(** A row written with ASCII keys and cells. *)
Definition mkRow (cells : list (string * string)) : row :=
  map (fun kv => (lit (fst kv), lit (snd kv))) cells.

Definition landlordNote : row := mkRow [("content", "- call landlord")]%string.

Definition noPriorityTask : row :=
  mkRow [("tags", ""); ("priority", "0")]%string.

Definition shortRow : row :=
  mkRow [("folderName", "Work"); ("listName", "Admin"); ("title", "Pay rent")]%string.

Definition doneTask : row :=
  mkRow [("status", "2"); ("completedTime", "2024-03-14T12:05:00.000+0000");
         ("timezone", "Asia/Tokyo")]%string.

Definition dueTask : row :=
  mkRow [("dueDate", "2024-03-15T00:00:00.000+0000");
         ("timezone", "Asia/Tokyo")]%string.

Definition zonelessTask : row :=
  mkRow [("createdTime", "2024-03-01T12:00:00.000+0000"); ("timezone", "")]%string.

Definition paddedList : row :=
  mkRow [("folderName", "A"); ("listName", " B"); ("createdTime", "1")]%string.

Definition bangList : row :=
  mkRow [("folderName", "A"); ("listName", "!"); ("createdTime", "2")]%string.

(** The row of the specification's scenario, in the zone the environment
    knows. *)
Definition rentTask : row :=
  mkRow [("folderName", "Work"); ("listName", "Admin"); ("title", "Pay rent");
         ("tags", "bills"); ("content", "- call landlord");
         ("isCheckList", "0"); ("startDate", "");
         ("dueDate", "2024-03-15T00:00:00.000+0000"); ("reminder", "");
         ("repeat", ""); ("priority", "1"); ("status", "0");
         ("createdTime", "2024-03-01T12:00:00.000+0000");
         ("completedTime", ""); ("order", "0"); ("timezone", "Asia/Tokyo");
         ("isAllDay", "0"); ("isFloating", "0"); ("columnName", "");
         ("columnOrder", "0"); ("viewMode", "")]%string.


Definition folderOnly : row := mkRow [("folderName", "Z")]%string.

Definition folderAndList : row :=
  mkRow [("folderName", "Z"); ("listName", "a")]%string.

Definition plainTask (folder title : string) : row :=
  mkRow [("folderName", folder); ("listName", ""); ("title", title);
         ("tags", ""); ("repeat", ""); ("priority", "")]%string.

(** The first line of a TickTick backup's table, as [csvtojson] gives it
    under the script's header list. *)
Definition headerRow : row :=
  mkRow [("folderName", "Folder Name"); ("listName", "List Name");
         ("title", "Title"); ("tags", "Tags"); ("content", "Content");
         ("isCheckList", "Is Check list"); ("startDate", "Start Date");
         ("dueDate", "Due Date"); ("reminder", "Reminder");
         ("repeat", "Repeat"); ("priority", "Priority");
         ("status", "Status"); ("createdTime", "Created Time");
         ("completedTime", "Completed Time"); ("order", "Order");
         ("timezone", "Timezone"); ("isAllDay", "Is All Day");
         ("isFloating", "Is Floating"); ("columnName", "Column Name");
         ("columnOrder", "Column Order"); ("viewMode", "View Mode")]%string.

(** ** Facts about strings *)

Lemma eqbs_eq (a b : jsstring) : eqbs a b = true <-> a = b.
Proof.
  revert b; induction a as [|x a IH]; intros [|y b]; simpl; split;
    try discriminate; try reflexivity.
  - intros H. apply andb_true_iff in H as [Hx Hr].
    apply N.eqb_eq in Hx. apply IH in Hr. now subst.
  - intros H. injection H as -> ->. rewrite N.eqb_refl. now apply IH.
Qed.

Lemma eqbs_refl (a : jsstring) : eqbs a a = true.
Proof. now apply eqbs_eq. Qed.

Lemma eqbs_neq (a b : jsstring) : eqbs a b = false <-> a <> b.
Proof.
  split.
  - intros H E. apply eqbs_eq in E. congruence.
  - intros H. destruct (eqbs a b) eqn:E; [|reflexivity].
    apply eqbs_eq in E. contradiction.
Qed.

Lemma ltbs_irrefl (a : jsstring) : ltbs a a = false.
Proof.
  induction a as [|x a IH]; simpl; [reflexivity|].
  now rewrite N.ltb_irrefl.
Qed.

Lemma ltbs_trans (a b c : jsstring) :
  ltbs a b = true -> ltbs b c = true -> ltbs a c = true.
Proof.
  revert b c; induction a as [|x a IH]; intros [|y b] [|z c]; simpl;
    try discriminate; try reflexivity.
  destruct (N.ltb_spec x y), (N.ltb_spec y x), (N.ltb_spec y z),
    (N.ltb_spec z y), (N.ltb_spec x z), (N.ltb_spec z x);
    try discriminate; try reflexivity; try lia.
  apply IH.
Qed.

Lemma ltbs_asym (a b : jsstring) : ltbs a b = true -> ltbs b a = false.
Proof.
  intros H. destruct (ltbs b a) eqn:E; [|reflexivity].
  pose proof (ltbs_trans _ _ _ H E) as C. rewrite ltbs_irrefl in C.
  discriminate.
Qed.

Lemma ltbs_connected (a b : jsstring) :
  ltbs a b = false -> ltbs b a = false -> a = b.
Proof.
  revert b; induction a as [|x a IH]; intros [|y b]; simpl;
    try discriminate; try reflexivity.
  destruct (N.ltb_spec x y), (N.ltb_spec y x); try discriminate; try lia.
  intros H1 H2. assert (x = y) by lia. subst. f_equal. now apply IH.
Qed.

Lemma dropWhile_head {A} (p : A -> bool) (l : list A) (c : A) (r : list A) :
  dropWhile p l = c :: r -> p c = false.
Proof.
  induction l as [|x l IH]; simpl; [discriminate|].
  destruct (p x) eqn:E; [exact IH|].
  intros H. injection H as -> _. exact E.
Qed.

Lemma dropWhile_keep {A} (p : A -> bool) (l : list A) (c : A) :
  p c = false -> dropWhile p (l ++ [c]) = dropWhile p l ++ [c].
Proof.
  intros Hc. induction l as [|x l IH]; simpl.
  - now rewrite Hc.
  - destruct (p x); [exact IH|reflexivity].
Qed.

Lemma trimEnd_cons (c : codeunit) (s : jsstring) :
  isSpace c = false -> trimEnd (c :: s) = c :: trimEnd s.
Proof.
  intros Hc. unfold trimEnd. simpl.
  rewrite (dropWhile_keep isSpace (rev s) c Hc).
  now rewrite rev_app_distr.
Qed.

(** A trimmed string does not start with white space. *)
Lemma trim_head (s : jsstring) (c : codeunit) (r : jsstring) :
  trim s = c :: r -> isSpace c = false.
Proof.
  unfold trim, trimStart. intros H.
  destruct (dropWhile isSpace s) as [|x t] eqn:E.
  - discriminate H.
  - pose proof (dropWhile_head _ _ _ _ E) as Hx.
    rewrite (trimEnd_cons x t Hx) in H. injection H as -> _. exact Hx.
Qed.

(** A trimmed string does not end with white space. *)
Lemma trimEnd_last (s r : jsstring) (c : codeunit) :
  trimEnd s = r ++ [c] -> isSpace c = false.
Proof.
  unfold trimEnd. intros H.
  apply (f_equal (@rev codeunit)) in H.
  rewrite rev_involutive, rev_app_distr in H. simpl in H.
  exact (dropWhile_head _ _ _ _ H).
Qed.

Lemma trim_last (s r : jsstring) (c : codeunit) :
  trim s = r ++ [c] -> isSpace c = false.
Proof. unfold trim. apply trimEnd_last. Qed.

Lemma cleanupStrings1_string (s : jsstring) :
  ToString (cleanupStrings1 (str s)) = trim s.
Proof.
  unfold cleanupStrings1, cleanupStrings, orElse. simpl.
  now destruct (trim s).
Qed.

(** ** The date formatter *)

(** No instant, or one [luxon] does not read, gives [null]. *)
Lemma reformatDates_absent (L : Luxon) (instant zone : value) :
  truthy instant = false
  \/ isValid L (fromISO L (ToString instant)) = false ->
  reformatDates L instant zone = null.
Proof.
  unfold reformatDates. intros [H|H]; rewrite H; simpl.
  - reflexivity.
  - now rewrite orb_true_r.
Qed.

(** Otherwise the zone goes to [setZone] as it is: the script has no
    fallback of its own. *)
Lemma reformatDates_present (L : Luxon) (instant zone : value) :
  truthy instant = true ->
  isValid L (fromISO L (ToString instant)) = true ->
  reformatDates L instant zone
  = str (toFormat L
           (setZone L (toUTC L (fromISO L (ToString instant))) zone)
           dateFormat).
Proof.
  unfold reformatDates. intros -> ->. reflexivity.
Qed.

(** C3.  An instant [luxon] reads, with the empty string as its zone:
    the zone is not one the library knows, the [DateTime] is invalid, and
    the text [Invalid DateTime] comes back and is put into the tag. *)
Theorem reformatDates_unknown_zone :
  reformatDates luxonTokyo (prop zonelessTask "createdTime")
    (prop zonelessTask "timezone")
  = str (lit "Invalid DateTime")
  /\ tpDefer luxonTokyo zonelessTask = lit " @defer(Invalid DateTime)".
Proof. split; vm_compute; reflexivity. Qed.

(** ** The encoders *)

Lemma truthy_str (v : value) :
  truthy v = true <-> exists d, v = str d /\ d <> [].
Proof.
  destruct v as [| |[|c s]]; simpl; split; try discriminate;
    try (intros [d [E _]]; discriminate E).
  - intros [d [E N]]. injection E as <-. contradiction.
  - intros _. exists (c :: s). split; [reflexivity|discriminate].
  - reflexivity.
Qed.

Lemma done_fragment_inj (d d' : jsstring) :
  lit " @done(" ++ d ++ lit ")" = lit " @done(" ++ d' ++ lit ")" -> d = d'.
Proof.
  intros H. apply app_inv_head in H. now apply app_inv_tail in H.
Qed.

(** C1.  [tpDone] gives the fragment [ @done(d)] exactly when the status is
    not zero and formatting the completion time gives the non-empty string
    [d]; it gives the empty string exactly when that is not so; and a
    status cell whose number is zero never gives a tag, whatever the
    completion time. *)
Theorem tpDone_iff (L : Luxon) (item : row) :
  let date :=
    reformatDates L (prop item "completedTime") (prop item "timezone") in
  (forall d,
      tpDone L item = lit " @done(" ++ d ++ lit ")"
      <-> looseNotEqualZero (prop item "status") = true
          /\ date = str d /\ d <> [])
  /\ (tpDone L item = []
      <-> ~ (looseNotEqualZero (prop item "status") = true
             /\ exists d, date = str d /\ d <> []))
  /\ (forall status,
        prop item "status" = str status -> StringToNumber status = Zero ->
        tpDone L item = []).
Proof.
  intros date. unfold tpDone. fold date.
  split; [|split].
  - intros d. split.
    + intros H.
      destruct (looseNotEqualZero (prop item "status")); [|discriminate H].
      destruct (truthy date) eqn:T; [|discriminate H].
      apply truthy_str in T as [d' [E N]]. rewrite E in H |- *.
      simpl in H. apply done_fragment_inj in H. subst d'. auto.
    + intros [Hs [Hd Hn]]. rewrite Hs, Hd. simpl.
      destruct d; [contradiction|reflexivity].
  - split.
    + intros H [Hs Hd]. apply truthy_str in Hd. rewrite Hs, Hd in H.
      discriminate H.
    + intros H.
      destruct (looseNotEqualZero (prop item "status")); [|reflexivity].
      destruct (truthy date) eqn:T; [|reflexivity].
      exfalso. apply H. split; [reflexivity|]. now apply truthy_str.
  - intros status Hs Hz. rewrite Hs. simpl. now rewrite Hz.
Qed.

(** A completed task in a zone the environment knows. *)
Lemma tpDone_iff_witness :
  tpDone luxonTokyo doneTask
  = lit " @done(" ++ lit "03/14/2024 9:05:00 PM" ++ lit ")".
Proof.
  apply (proj2 (proj1 (tpDone_iff luxonTokyo doneTask)
                  (lit "03/14/2024 9:05:00 PM"))).
  split; [reflexivity|]. split; [vm_compute; reflexivity|discriminate].
Defined.

(** C2.  A task without priority is exported with priority [0]; the cell
    is the string [0], which is not empty, so the tag is written. *)
Theorem tpTags_priority_zero :
  prop noPriorityTask "priority" = str (lit "0")
  /\ tpFlagged noPriorityTask = []
  /\ tpTags noPriorityTask = lit " @tags(priority-0)".
Proof. repeat split. Qed.

(** C8.  A row shorter than the header list has no [tags], [repeat] or
    [priority] key; [String(undefined)] is the text [undefined], and it is
    written into the tags. *)
Theorem tpTags_missing_key :
  prop shortRow "tags" = undefined
  /\ cleanupStrings1 (prop shortRow "tags") = str (lit "undefined")
  /\ tpTags shortRow = lit " @tags(undefined)"
  /\ tpRepeat shortRow = lit " @repeat-method(fixed) @repeat-rule(undefined)"
  /\ tpNote shortRow = [].
Proof. repeat split. Qed.

(** [cleanupStrings] on a string: the trimmed string, or the fallback when
    nothing is left. *)
Lemma cleanupStrings_string (s : jsstring) (fallback : value) :
  cleanupStrings (str s) fallback
  = if isEmpty (trim s) then fallback else str (trim s).
Proof.
  unfold cleanupStrings, orElse. simpl. now destruct (trim s).
Qed.

Lemma stripBullets_cases :
  stripBullets [] = []
  /\ (forall rest, stripBullets (45 :: blackSmallSquare :: rest) = rest)
  /\ (forall rest, stripBullets (blackSmallSquare :: rest) = rest)
  /\ (forall rest,
        replaceLeading blackSmallSquare rest = rest ->
        stripBullets (45 :: rest) = rest)
  /\ (forall c rest,
        c <> 45 -> c <> blackSmallSquare ->
        stripBullets (c :: rest) = c :: rest).
Proof.
  unfold stripBullets. repeat split; try reflexivity.
  - intros rest H. simpl. exact H.
  - intros c rest H1 H2. apply N.eqb_neq in H1, H2.
    unfold replaceLeading at 2. rewrite H1.
    unfold replaceLeading. now rewrite H2.
Qed.

(** C9, as the code has it.  Without a note the encoder gives the empty
    string.  With one, the whole note is trimmed and cut at the newlines,
    and each line loses a leading [-] if it has one and then a leading
    black square if it has one; nothing else is taken from a line, so the
    space after a marker stays. *)
Theorem tpNote_lines (item : row) :
  (truthy (prop item "content") = false -> tpNote item = [])
  /\ (forall content,
        prop item "content" = str content -> content <> [] ->
        tpNote item
        = join newline (map stripBullets (split 10 (trim content))))
  /\ stripBullets [] = []
  /\ (forall rest, stripBullets (45 :: blackSmallSquare :: rest) = rest)
  /\ (forall rest, stripBullets (blackSmallSquare :: rest) = rest)
  /\ (forall rest,
        replaceLeading blackSmallSquare rest = rest ->
        stripBullets (45 :: rest) = rest)
  /\ (forall c rest,
        c <> 45 -> c <> blackSmallSquare ->
        stripBullets (c :: rest) = c :: rest).
Proof.
  split; [|split; [|exact stripBullets_cases]].
  - unfold tpNote. now intros ->.
  - intros content Hc Hne. unfold tpNote. rewrite Hc.
    rewrite cleanupStrings1_string.
    destruct content; [contradiction|reflexivity].
Qed.

Lemma tpNote_lines_witness :
  tpNote landlordNote
  = join newline
      (map stripBullets (split 10 (trim (lit "- call landlord")))).
Proof.
  apply (proj1 (proj2 (tpNote_lines landlordNote))).
  - reflexivity.
  - discriminate.
Defined.

(** C9, as the claim has it: the line of the note [- call landlord] keeps
    the space that followed the dash. *)
Lemma tpNote_keeps_space :
  tpNote landlordNote = lit " call landlord"
  /\ tpNote landlordNote <> lit "call landlord".
Proof. split; [reflexivity|discriminate]. Qed.

(** ** Header detection *)

Lemma fold_and_forallb (l : list bool) (b : bool) :
  fold_left (fun acc each => acc && each) l b = b && forallb (fun x => x) l.
Proof.
  revert b; induction l as [|x l IH]; intros b; simpl.
  - now rewrite andb_true_r.
  - rewrite IH. now rewrite andb_assoc.
Qed.

Lemma isHeaderRow_spec (task : row) :
  isHeaderRow task = true
  <-> forall key, In key (Object_keys task) ->
        exists cell, get task key = str cell /\ keyToCamelCase cell = key.
Proof.
  unfold isHeaderRow. rewrite fold_and_forallb. simpl.
  rewrite forallb_forall. split.
  - intros H key Hin.
    specialize (H _ (in_map _ _ _ Hin)). simpl in H.
    destruct (get task key) as [| |cell]; try discriminate.
    exists cell. split; [reflexivity|]. symmetry. now apply eqbs_eq.
  - intros H b Hb. apply in_map_iff in Hb as [key [<- Hin]].
    destruct (H key Hin) as [cell [-> <-]]. apply eqbs_refl.
Qed.

Lemma findIndex_bounds {A} (p : A -> bool) (l : list A) :
  (findIndex p l = -1 \/ 0 <= findIndex p l < Z.of_nat (List.length l))%Z.
Proof.
  induction l as [|x l IH]; simpl; [now left|].
  destruct (p x); [right; lia|].
  destruct (Z.ltb_spec (findIndex p l) 0); [now left|right; lia].
Qed.

Lemma findIndex_none {A} (p : A -> bool) (l : list A) :
  (findIndex p l < 0)%Z -> forall x, In x l -> p x = false.
Proof.
  induction l as [|y l IH]; simpl; [contradiction|].
  destruct (p y) eqn:E; [lia|].
  destruct (Z.ltb_spec (findIndex p l) 0) as [Hn|Hn]; [|lia].
  intros _ x [<-|Hin]; [exact E|now apply IH].
Qed.

Lemma findIndex_first {A} (p : A -> bool) (l : list A) (i : nat) :
  findIndex p l = Z.of_nat i ->
  (exists x, nth_error l i = Some x /\ p x = true)
  /\ forall j y, (j < i)%nat -> nth_error l j = Some y -> p y = false.
Proof.
  revert i; induction l as [|x l IH]; intros i; simpl; [lia|].
  destruct (p x) eqn:E.
  - intros H. assert (i = 0%nat) by lia. subst. split.
    + exists x. now split.
    + intros j y Hj. lia.
  - destruct (Z.ltb_spec (findIndex p l) 0) as [Hn|Hn]; [lia|].
    intros H. destruct i as [|i]; [lia|].
    destruct (IH i ltac:(lia)) as [Hx Hbefore]. split; [exact Hx|].
    intros [|j] y Hj; simpl.
    + now intros [= <-].
    + apply Hbefore. lia.
Qed.

Lemma splice_from {A} (l : list A) (n : nat) :
  splice l (Z.of_nat n) = skipn n l.
Proof.
  unfold splice. destruct (Z.ltb_spec (Z.of_nat n) 0); [lia|].
  now rewrite Nat2Z.id.
Qed.

(** C4.  A row passes the header test exactly when each of its keys is the
    camel-case transform of its cell.  Either some row passes: then the
    header is the first such row, at index [i], the rows [0..i] are dropped,
    the rows after [i] are the data set, and nothing is reported.  Or no
    row passes: then the format error is reported, no row is dropped, and
    the run goes on to render all of them. *)
Theorem header_detection (L : Luxon) (json : list row) :
  (forall task,
      isHeaderRow task = true
      <-> forall key, In key (Object_keys task) ->
            exists cell, get task key = str cell /\ keyToCamelCase cell = key)
  /\ ((exists i header,
          nth_error json i = Some header
          /\ isHeaderRow header = true
          /\ (forall j task,
                 (j < i)%nat -> nth_error json j = Some task ->
                 isHeaderRow task = false)
          /\ headerRowIndex json = Z.of_nat i
          /\ json = firstn (S i) json ++ dataSet json
          /\ dataSet json = skipn (S i) json
          /\ reported (parseJson L json) = []
          /\ copied (parseJson L json)
             = render L (Array_sort sortByProjectAndCreation (skipn (S i) json)))
      \/ ((forall task, In task json -> isHeaderRow task = false)
          /\ headerRowIndex json = (-1)%Z
          /\ reported (parseJson L json) = [format]
          /\ dataSet json = json
          /\ copied (parseJson L json)
             = render L (Array_sort sortByProjectAndCreation json))).
Proof.
  split; [exact isHeaderRow_spec|].
  unfold parseJson, dataSet, headerRowIndex. simpl.
  destruct (findIndex_bounds isHeaderRow json) as [Hnone|Hsome].
  - right. rewrite Hnone. simpl. repeat split.
    apply findIndex_none. lia.
  - left. exists (Z.to_nat (findIndex isHeaderRow json)).
    assert (Hi : findIndex isHeaderRow json
                 = Z.of_nat (Z.to_nat (findIndex isHeaderRow json))) by lia.
    destruct (findIndex_first _ _ _ Hi) as [[header [Hnth Hp]] Hbefore].
    exists header.
    replace (findIndex isHeaderRow json + 1)%Z
      with (Z.of_nat (S (Z.to_nat (findIndex isHeaderRow json)))) by lia.
    rewrite splice_from.
    destruct (Z.ltb_spec (findIndex isHeaderRow json) 0); [lia|].
    repeat split; try assumption.
    symmetry.
    exact (firstn_skipn (S (Z.to_nat (findIndex isHeaderRow json))) json).
Qed.

(** A backup whose table starts with a title line before the header. *)
Lemma header_detection_witness :
  dataSet [shortRow; headerRow; landlordNote; noPriorityTask]
  = [landlordNote; noPriorityTask]
  /\ dataSet [shortRow; landlordNote] = [shortRow; landlordNote].
Proof.
  split.
  - destruct (proj2 (header_detection luxonTokyo
                       [shortRow; headerRow; landlordNote; noPriorityTask]))
      as [[i [header [_ [_ [_ [Hi [_ [Hd _]]]]]]]]|[Hno _]].
    + rewrite Hd. replace i with 1%nat; [reflexivity|].
      apply Nat2Z.inj. rewrite <- Hi. reflexivity.
    + specialize (Hno headerRow (or_intror (or_introl eq_refl))).
      discriminate Hno.
  - reflexivity.
Defined.

(** ** The empty data set *)

Lemma render_nil (L : Luxon) : render L [] = Ok [].
Proof. reflexivity. Qed.

(** C10.  When no row is left after the header, the text is empty and it
    is the text handed to [copy]: the run ends as any other. *)
Theorem empty_data_set (L : Luxon) (json : list row) :
  dataSet json = [] -> copied (parseJson L json) = Ok [].
Proof.
  intros H. unfold parseJson. simpl. now rewrite H.
Qed.

(** No row at all, and a table that ends with its header. *)
Lemma empty_data_set_witness :
  parseJson luxonTokyo [] = {| reported := [format]; copied := Ok [] |}
  /\ copied (parseJson luxonTokyo [shortRow; headerRow]) = Ok [].
Proof.
  split.
  - reflexivity.
  - apply (empty_data_set luxonTokyo [shortRow; headerRow]). reflexivity.
Defined.

(** ** Sorting *)

Section Sorting.

Variable A : Type.
Variable cmp : A -> A -> Z.

Lemma insertSorted_perm (x : A) (l : list A) :
  Permutation (x :: l) (insertSorted cmp x l).
Proof.
  induction l as [|y t IH]; simpl; [apply Permutation_refl|].
  destruct (0 <? cmp x y)%Z; [|apply Permutation_refl].
  apply perm_trans with (y :: x :: t); [apply perm_swap|].
  now apply perm_skip.
Qed.

Lemma Array_sort_perm (l : list A) : Permutation l (Array_sort cmp l).
Proof.
  induction l as [|x l IH]; simpl; [apply perm_nil|].
  apply perm_trans with (x :: Array_sort cmp l).
  - now apply perm_skip.
  - apply insertSorted_perm.
Qed.

Section Ordered.

Variable ok : A -> Prop.
Hypothesis total :
  forall a b, (0 <? cmp a b)%Z = true -> notAfter cmp b a.
Hypothesis trans :
  forall a b c, ok a -> ok b -> ok c ->
                notAfter cmp a b -> notAfter cmp b c -> notAfter cmp a c.

Lemma insertSorted_sorted (x : A) (l : list A) :
  ok x -> Forall ok l ->
  StronglySorted (notAfter cmp) l ->
  StronglySorted (notAfter cmp) (insertSorted cmp x l).
Proof.
  intros Hx. induction l as [|y t IH]; intros Hok Hs; simpl.
  - constructor; constructor.
  - inversion Hok as [|? ? Hy Ht]; subst.
    inversion Hs as [|? ? Hst Hall]; subst.
    destruct (0 <? cmp x y)%Z eqn:E.
    + constructor; [now apply IH|].
      apply (Permutation_Forall (insertSorted_perm x t)).
      constructor; [now apply total|exact Hall].
    + constructor; [exact Hs|].
      constructor; [exact E|].
      rewrite Forall_forall in Hall, Ht |- *.
      intros z Hz. apply (trans x y z); auto.
Qed.

Lemma Array_sort_sorted (l : list A) :
  Forall ok l -> StronglySorted (notAfter cmp) (Array_sort cmp l).
Proof.
  induction l as [|x l IH]; intros Hok; simpl; [constructor|].
  inversion Hok; subst.
  apply insertSorted_sorted; auto.
  now apply (Permutation_Forall (Array_sort_perm l)).
Qed.

End Ordered.

Section Stable.

Variable f : A -> bool.
Hypothesis tie :
  forall x y, f x = true -> f y = true -> (0 <? cmp x y)%Z = false.

Lemma filter_insertSorted (x : A) (l : list A) :
  filter f (insertSorted cmp x l) = filter f (x :: l).
Proof.
  induction l as [|y t IH]; [reflexivity|].
  simpl insertSorted. destruct (0 <? cmp x y)%Z eqn:E; [|reflexivity].
  simpl in *. rewrite IH.
  destruct (f x) eqn:Fx; [|reflexivity].
  destruct (f y) eqn:Fy; [|reflexivity].
  rewrite (tie x y Fx Fy) in E. discriminate E.
Qed.

Lemma Array_sort_stable (l : list A) :
  filter f (Array_sort cmp l) = filter f l.
Proof.
  induction l as [|x l IH]; [reflexivity|].
  simpl Array_sort. rewrite filter_insertSorted. simpl. now rewrite IH.
Qed.

End Stable.

End Sorting.

Lemma StronglySorted_weaken {A} (R R' : A -> A -> Prop) (l : list A) :
  (forall a b, R a b -> R' a b) -> StronglySorted R l -> StronglySorted R' l.
Proof.
  intros H. induction 1 as [|a l Hs IH Hall]; constructor; [exact IH|].
  eapply Forall_impl; [|exact Hall]. apply H.
Qed.

Lemma sortProjectName_str (a : row) :
  sortProjectName a = str (ToString (sortProjectName a)).
Proof.
  unfold sortProjectName, cleanupStrings1, cleanupStrings, orElse. simpl.
  now destruct (trim _).
Qed.

Lemma lessThan_irrefl (v : value) : lessThan v v = false.
Proof. destruct v; simpl; auto using ltbs_irrefl. Qed.

Lemma lessThan_asym (a b : value) : lessThan a b = true -> lessThan b a = false.
Proof.
  destruct a, b; simpl; try discriminate; try reflexivity.
  - destruct (StringToNumber s); auto; discriminate.
  - destruct (StringToNumber s); auto; discriminate.
  - apply ltbs_asym.
Qed.

Lemma valueEqb_eq (a b : value) : valueEqb a b = true -> a = b.
Proof.
  destruct a, b; simpl; try discriminate; try reflexivity.
  intros H. apply eqbs_eq in H. now subst.
Qed.

(** The comparator says "not after" exactly for the rows in order. *)
Lemma comparator_inOrder (a b : row) :
  (0 <? sortByProjectAndCreation a b)%Z = false <-> inOrder a b.
Proof.
  unfold sortByProjectAndCreation, inOrder, greaterThan.
  rewrite (sortProjectName_str a), (sortProjectName_str b). simpl.
  set (pa := ToString (sortProjectName a)).
  set (pb := ToString (sortProjectName b)).
  destruct (ltbs pa pb) eqn:Hab; [split; auto|].
  destruct (ltbs pb pa) eqn:Hba.
  - split; [discriminate|].
    intros [H|[H _]]; [discriminate H|].
    rewrite H, ltbs_irrefl in Hba. discriminate Hba.
  - pose proof (ltbs_connected _ _ Hab Hba) as Heq.
    destruct (lessThan (prop a "createdTime") (prop b "createdTime")) eqn:Tab.
    + split; [|reflexivity]. intros _. right. split; [exact Heq|].
      now apply lessThan_asym.
    + destruct (lessThan (prop b "createdTime") (prop a "createdTime"));
        split; auto; try discriminate.
      intros [H|[_ H]]; discriminate H.
Qed.

Lemma comparator_total (a b : row) :
  (0 <? sortByProjectAndCreation a b)%Z = true ->
  (0 <? sortByProjectAndCreation b a)%Z = false.
Proof.
  intros H. apply comparator_inOrder.
  destruct (0 <? sortByProjectAndCreation b a)%Z eqn:E;
    [|now apply comparator_inOrder].
  exfalso.
  unfold sortByProjectAndCreation, greaterThan in *.
  rewrite (sortProjectName_str a), (sortProjectName_str b) in *.
  simpl in *.
  destruct (ltbs (ToString (sortProjectName a)) (ToString (sortProjectName b)));
    [discriminate H|].
  destruct (ltbs (ToString (sortProjectName b)) (ToString (sortProjectName a)));
    [discriminate E|].
  destruct (lessThan (prop a "createdTime") (prop b "createdTime")) eqn:Tab;
    [discriminate H|].
  destruct (lessThan (prop b "createdTime") (prop a "createdTime"));
    discriminate.
Qed.

Lemma inOrder_trans (a b c : row) :
  hasCreatedTime a = true -> hasCreatedTime b = true ->
  hasCreatedTime c = true ->
  inOrder a b -> inOrder b c -> inOrder a c.
Proof.
  unfold hasCreatedTime, inOrder.
  destruct (prop a "createdTime") as [| |ta]; try discriminate.
  destruct (prop b "createdTime") as [| |tb]; try discriminate.
  destruct (prop c "createdTime") as [| |tc]; try discriminate.
  simpl. intros _ _ _ [Hab|[Hab Tab]] [Hbc|[Hbc Tbc]].
  - left. eapply ltbs_trans; eauto.
  - left. now rewrite <- Hbc.
  - left. now rewrite Hab.
  - right. split; [congruence|].
    destruct (ltbs tc ta) eqn:Tca; [|reflexivity].
    destruct (ltbs ta tb) eqn:Tab'.
    + rewrite (ltbs_trans _ _ _ Tca Tab') in Tbc. discriminate Tbc.
    + rewrite (ltbs_connected _ _ Tab' Tab) in Tca. congruence.
Qed.

Lemma sameSortKey_tie (k x y : row) :
  sameSortKey k x = true -> sameSortKey k y = true ->
  (0 <? sortByProjectAndCreation x y)%Z = false.
Proof.
  unfold sameSortKey. intros Hx Hy.
  apply andb_true_iff in Hx as [Px Tx]. apply andb_true_iff in Hy as [Py Ty].
  apply eqbs_eq in Px, Py. apply valueEqb_eq in Tx, Ty.
  apply comparator_inOrder. right. rewrite <- Px, <- Py, <- Tx, <- Ty.
  split; [reflexivity|apply lessThan_irrefl].
Qed.

(** The comparator's project string is the encoder's when the folder and
    list names are there and carry no white space around them. *)
Lemma sortProjectName_tpProject (r : row) (folder list : jsstring) :
  prop r "folderName" = str folder -> prop r "listName" = str list ->
  trim folder = folder -> trim list = list ->
  ToString (sortProjectName r) = tpProject r.
Proof.
  intros Hf Hl Tf Tl. unfold sortProjectName, tpProject.
  rewrite Hf, Hl. rewrite !cleanupStrings1_string.
  unfold cleanupStrings1, cleanupStrings, orElse. simpl. rewrite Tf, Tl.
  destruct folder as [|c f]; destruct list as [|d l]; simpl;
    try reflexivity; now destruct (trim _).
Qed.

(** The order of the sorted rows.  They are the given rows, in order by the
    comparator's project string and then by creation time, and the rows of
    one key keep the order they came in.  The comparator's project string
    is the trimmed [folderName listName]; it is the encoder's project
    string for a row whose folder and list names are there and carry no
    white space around them. *)
Theorem sort_by_project_and_creation (rows : list row) :
  forallb hasCreatedTime rows = true ->
  Permutation rows (Array_sort sortByProjectAndCreation rows)
  /\ StronglySorted inOrder (Array_sort sortByProjectAndCreation rows)
  /\ (forall key,
        filter (sameSortKey key) (Array_sort sortByProjectAndCreation rows)
        = filter (sameSortKey key) rows)
  /\ (forall r folder list,
        prop r "folderName" = str folder -> prop r "listName" = str list ->
        trim folder = folder -> trim list = list ->
        ToString (sortProjectName r) = tpProject r).
Proof.
  intros Hok. split; [apply Array_sort_perm|]. split; [|split].
  - apply StronglySorted_weaken with (R := notAfter sortByProjectAndCreation).
    { intros a b. apply comparator_inOrder. }
    apply Array_sort_sorted with (ok := fun r => hasCreatedTime r = true).
    + apply comparator_total.
    + intros a b c Ha Hb Hc Hab Hbc. apply comparator_inOrder.
      apply comparator_inOrder in Hab, Hbc.
      now apply (inOrder_trans a b c).
    + apply Forall_forall. now apply forallb_forall.
  - intros key. apply Array_sort_stable. apply sameSortKey_tie.
  - apply sortProjectName_tpProject.
Qed.

Lemma sort_by_project_and_creation_witness :
  StronglySorted inOrder
    (Array_sort sortByProjectAndCreation [bangList; paddedList; bangList]).
Proof.
  apply (sort_by_project_and_creation [bangList; paddedList; bangList]).
  reflexivity.
Defined.

(** C5.  The comparator builds its project string by another rule than the
    encoder.  A list name with a space before it, or a row without a list
    name, gets a comparator string that is not its project string, and the
    sorted rows are then not in ascending order of their project strings. *)
Theorem sort_not_by_encoder_project :
  Array_sort sortByProjectAndCreation [bangList; paddedList]
  = [paddedList; bangList]
  /\ map tpProject [paddedList; bangList] = [lit "A B"; lit "A !"]
  /\ ltbs (tpProject bangList) (tpProject paddedList) = true
  /\ Array_sort sortByProjectAndCreation [folderOnly; folderAndList]
     = [folderAndList; folderOnly]
  /\ ToString (sortProjectName folderOnly) = lit "Z undefined"
  /\ map tpProject [folderAndList; folderOnly] = [lit "Z a"; lit "Z"]
  /\ ltbs (tpProject folderOnly) (tpProject folderAndList) = true.
Proof. repeat split. Qed.

(** ** Grouping *)

Lemma getOwn_setOwn (acc : projects) (key : jsstring) (v : list jsstring) :
  getOwn (setOwn acc key v) key = Some v.
Proof.
  induction acc as [|[k old] rest IH]; simpl.
  - now rewrite eqbs_refl.
  - destruct (eqbs k key) eqn:E; simpl; now rewrite E.
Qed.

Lemma setOwn_setOwn (acc : projects) (key : jsstring) (v w : list jsstring) :
  setOwn (setOwn acc key v) key w = setOwn acc key w.
Proof.
  induction acc as [|[k old] rest IH]; simpl.
  - now rewrite eqbs_refl.
  - destruct (eqbs k key) eqn:E; simpl; rewrite E; [reflexivity|].
    now rewrite IH.
Qed.

Lemma eqbs_sym (a b : jsstring) : eqbs a b = eqbs b a.
Proof.
  destruct (eqbs a b) eqn:E.
  - apply eqbs_eq in E. subst. symmetry. apply eqbs_refl.
  - symmetry. apply eqbs_neq. apply eqbs_neq in E. congruence.
Qed.

(** The keys after an assignment: a key that is there keeps its place, a
    new one comes last. *)
Lemma keys_setOwn (acc : projects) (key : jsstring) (v : list jsstring) :
  map fst (setOwn acc key v)
  = if existsb (eqbs key) (map fst acc) then map fst acc
    else map fst acc ++ [key].
Proof.
  induction acc as [|[k old] rest IH]; simpl; [reflexivity|].
  rewrite (eqbs_sym key k).
  destruct (eqbs k key) eqn:E; simpl; [reflexivity|].
  rewrite IH. now destruct (existsb (eqbs key) (map fst rest)).
Qed.

Lemma getOwn_keys (acc : projects) (key : jsstring) :
  existsb (eqbs key) (map fst acc)
  = match getOwn acc key with Some _ => true | None => false end.
Proof.
  induction acc as [|[k old] rest IH]; simpl; [reflexivity|].
  rewrite (eqbs_sym key k). now destruct (eqbs k key).
Qed.

Lemma getOwn_in (acc : projects) (key : jsstring) (v : list jsstring) :
  getOwn acc key = Some v -> In (key, v) acc.
Proof.
  induction acc as [|[k old] rest IH]; simpl; [discriminate|].
  destruct (eqbs k key) eqn:E.
  - intros [= <-]. apply eqbs_eq in E. subst. now left.
  - intros H. right. now apply IH.
Qed.

Section Buckets.

Variable L : Luxon.

(** [listTasksByProject] in one step: push onto the bucket that is there,
    throw on an inherited name, or start a bucket with its header. *)
Lemma listTasksByProject_eq (acc : projects) (task : row) :
  listTasksByProject L acc task
  = match getOwn acc (projectKey task) with
    | Some blocks =>
        Ok (setOwn acc (projectKey task) (blocks ++ [taskBlock L task]))
    | None =>
        if inherited (projectKey task) then Throw TypeError
        else Ok (setOwn acc (projectKey task)
                   ([newline ++ projectKey task ++ lit ":"]
                    ++ [taskBlock L task]))
    end.
Proof.
  unfold listTasksByProject, projectKey.
  destruct (getOwn acc (trim (tpProject task))) as [blocks|] eqn:G.
  - now rewrite G.
  - destruct (inherited (trim (tpProject task))).
    + now rewrite G.
    + now rewrite getOwn_setOwn, setOwn_setOwn.
Qed.

Lemma push_existing (acc : projects) (ts : list (list row))
  (blocks : list jsstring) (task : row) :
  Forall2 (bucketOf L) acc ts ->
  getOwn acc (projectKey task) = Some blocks ->
  exists ts',
    Forall2 (bucketOf L)
      (setOwn acc (projectKey task) (blocks ++ [taskBlock L task])) ts'
    /\ Permutation (task :: List.concat ts) (List.concat ts').
Proof.
  induction 1 as [|[k v] tasks acc ts Hb Hrest IH]; simpl; [discriminate|].
  destruct (eqbs k (projectKey task)) eqn:E.
  - intros [= <-]. apply eqbs_eq in E.
    exists ((tasks ++ [task]) :: ts). split.
    + constructor; [|exact Hrest].
      destruct Hb as [Hne [Hblocks Hall]]. simpl in *. repeat split.
      * now destruct tasks.
      * rewrite Hblocks. unfold bucketBlocks. simpl. now rewrite map_app.
      * apply Forall_app. split; [exact Hall|].
        constructor; [now symmetry|constructor].
    + simpl. rewrite <- app_assoc. apply Permutation_middle.
  - intros Hget. destruct (IH Hget) as [ts' [Hts' Hperm]].
    exists (tasks :: ts'). split; [now constructor|].
    simpl. eapply perm_trans; [apply Permutation_middle|].
    now apply Permutation_app_head.
Qed.

Lemma push_new (acc : projects) (ts : list (list row)) (task : row) :
  Forall2 (bucketOf L) acc ts ->
  getOwn acc (projectKey task) = None ->
  exists ts',
    Forall2 (bucketOf L)
      (setOwn acc (projectKey task)
         ([newline ++ projectKey task ++ lit ":"] ++ [taskBlock L task]))
      ts'
    /\ Permutation (task :: List.concat ts) (List.concat ts').
Proof.
  induction 1 as [|[k v] tasks acc ts Hb Hrest IH]; simpl.
  - intros _. exists [[task]]. split; [|apply Permutation_refl].
    constructor; [|constructor].
    repeat split; [discriminate|]. simpl. now constructor.
  - destruct (eqbs k (projectKey task)) eqn:E; [discriminate|].
    intros Hget. destruct (IH Hget) as [ts' [Hts' Hperm]].
    exists (tasks :: ts'). split; [now constructor|].
    simpl. eapply perm_trans; [apply Permutation_middle|].
    now apply Permutation_app_head.
Qed.

Lemma listTasksByProject_buckets (acc acc' : projects) (ts : list (list row))
  (task : row) :
  Forall2 (bucketOf L) acc ts ->
  listTasksByProject L acc task = Ok acc' ->
  exists ts',
    Forall2 (bucketOf L) acc' ts'
    /\ Permutation (task :: List.concat ts) (List.concat ts').
Proof.
  intros Hinv. rewrite listTasksByProject_eq.
  destruct (getOwn acc (projectKey task)) as [blocks|] eqn:G.
  - intros [= <-]. now apply push_existing.
  - destruct (inherited (projectKey task)); [discriminate|].
    intros [= <-]. now apply push_new.
Qed.

Lemma reduce_buckets (rows : list row) (acc acc' : projects)
  (ts : list (list row)) :
  Forall2 (bucketOf L) acc ts ->
  reduce (listTasksByProject L) rows acc = Ok acc' ->
  exists ts',
    Forall2 (bucketOf L) acc' ts'
    /\ Permutation (rows ++ List.concat ts) (List.concat ts').
Proof.
  revert acc ts; induction rows as [|task rows IH]; intros acc ts Hinv; simpl.
  - intros [= <-]. exists ts. split; [exact Hinv|apply Permutation_refl].
  - destruct (listTasksByProject L acc task) as [acc1|e] eqn:E;
      [|discriminate].
    destruct (listTasksByProject_buckets _ _ _ _ Hinv E) as [ts1 [H1 P1]].
    simpl. intros R. destruct (IH _ _ H1 R) as [ts' [H' P']].
    exists ts'. split; [exact H'|].
    eapply perm_trans; [|exact P'].
    eapply perm_trans; [apply Permutation_middle|].
    now apply Permutation_app_head.
Qed.

(** The keys of the accumulator after a pass: met first, created first. *)
Lemma reduce_keys (rows : list row) (acc acc' : projects) :
  reduce (listTasksByProject L) rows acc = Ok acc' ->
  map fst acc' = encounterOrder (map fst acc) (map projectKey rows).
Proof.
  revert acc; induction rows as [|task rows IH]; intros acc; simpl.
  - now intros [= <-].
  - destruct (listTasksByProject L acc task) as [acc1|e] eqn:E;
      [|discriminate].
    simpl. intros R. rewrite (IH _ R). f_equal.
    rewrite listTasksByProject_eq in E. rewrite getOwn_keys.
    destruct (getOwn acc (projectKey task)) as [blocks|] eqn:G.
    + injection E as <-. rewrite keys_setOwn, getOwn_keys. now rewrite G.
    + destruct (inherited (projectKey task)); [discriminate|].
      injection E as <-. rewrite keys_setOwn, getOwn_keys. now rewrite G.
Qed.

(** A pass throws exactly when it meets an inherited name. *)
Lemma reduce_throws (rows : list row) (acc : projects) :
  Forall (fun e => inherited (fst e) = false) acc ->
  reduce (listTasksByProject L) rows acc = Throw TypeError
  <-> existsb (fun t => inherited (projectKey t)) rows = true.
Proof.
  revert acc; induction rows as [|task rows IH]; intros acc Hacc; simpl.
  - split; discriminate.
  - rewrite listTasksByProject_eq.
    destruct (getOwn acc (projectKey task)) as [blocks|] eqn:G.
    + assert (Hk : inherited (projectKey task) = false).
      { apply getOwn_in in G. rewrite Forall_forall in Hacc.
        exact (Hacc _ G). }
      rewrite Hk. simpl. apply IH.
      apply Forall_forall. intros e He.
      assert (In (fst e) (map fst acc)) as Hin.
      { apply (in_map fst) in He. rewrite keys_setOwn, getOwn_keys, G in He.
        exact He. }
      apply in_map_iff in Hin as [e' [Hfst Hin]].
      rewrite <- Hfst. rewrite Forall_forall in Hacc. now apply Hacc.
    + destruct (inherited (projectKey task)) eqn:Hk; simpl.
      * split; reflexivity.
      * apply IH. apply Forall_forall. intros e He.
        apply (in_map fst) in He. rewrite keys_setOwn, getOwn_keys, G in He.
        apply in_app_or in He as [Hin|[<-|[]]]; [|exact Hk].
        apply in_map_iff in Hin as [e' [Hfst Hin]].
        rewrite <- Hfst. rewrite Forall_forall in Hacc. now apply Hacc.
Qed.

End Buckets.

Lemma insertByIndex_perm {A} (e : jsstring * A) (l : list (jsstring * A)) :
  Permutation (e :: l) (insertByIndex e l).
Proof.
  induction l as [|y t IH]; simpl; [apply Permutation_refl|].
  destruct (indexOf (fst y) <? indexOf (fst e)); [|apply Permutation_refl].
  apply perm_trans with (y :: e :: t); [apply perm_swap|].
  now apply perm_skip.
Qed.

Lemma filter_both_perm {A} (f : A -> bool) (l : list A) :
  Permutation l (filter f l ++ filter (fun x => negb (f x)) l).
Proof.
  induction l as [|x l IH]; simpl; [apply perm_nil|].
  destruct (f x); simpl.
  - now apply perm_skip.
  - now apply Permutation_cons_app.
Qed.

(** An object lists each of its own properties once. *)
Lemma ownPropertyOrder_perm {A} (o : list (jsstring * A)) :
  Permutation o (ownPropertyOrder o).
Proof.
  unfold ownPropertyOrder.
  eapply perm_trans; [apply (filter_both_perm (fun e => isArrayIndex (fst e)))|].
  apply Permutation_app_tail.
  induction (filter (fun e => isArrayIndex (fst e)) o) as [|x l IH];
    simpl; [apply perm_nil|].
  eapply perm_trans; [apply perm_skip, IH|]. apply insertByIndex_perm.
Qed.

Lemma Forall2_exists {A B} (P : A -> B -> Prop) (l : list A) (ys : list B) :
  Forall2 P l ys -> Forall (fun x => exists y, P x y) l.
Proof. induction 1; constructor; eauto. Qed.

Lemma Forall_exists_Forall2 {A B} (P : A -> B -> Prop) (l : list A) :
  Forall (fun x => exists y, P x y) l -> exists ys, Forall2 P l ys.
Proof.
  induction 1 as [|x l [y Hy] _ [ys Hys]].
  - exists []. constructor.
  - exists (y :: ys). now constructor.
Qed.

Lemma join_prefixed {A} (pre sep : jsstring) (f : A -> jsstring) (l : list A) :
  l <> [] ->
  join sep (map (fun x => pre ++ f x) l) = pre ++ join (sep ++ pre) (map f l).
Proof.
  induction l as [|x l IH]; [contradiction|]. intros _.
  destruct l as [|y l]; [reflexivity|].
  change (join sep (map (fun x => pre ++ f x) (x :: y :: l)))
    with ((pre ++ f x) ++ sep ++ join sep (map (fun x => pre ++ f x) (y :: l))).
  rewrite IH by discriminate.
  change (join (sep ++ pre) (map f (x :: y :: l)))
    with (f x ++ (sep ++ pre) ++ join (sep ++ pre) (map f (y :: l))).
  now rewrite <- !app_assoc.
Qed.

Lemma join_cons_prefixed (pre sep first : jsstring) (rest : list jsstring) :
  join sep ((pre ++ first) :: rest) = pre ++ join sep (first :: rest).
Proof.
  destruct rest; simpl; [reflexivity|]. now rewrite <- app_assoc.
Qed.

Lemma buckets_text (L : Luxon) (buckets : list (jsstring * list row)) :
  join blankLine (map (fun b => join blankLine (bucketBlocks L b)) buckets)
  = match buckets with
    | [] => []
    | _ =>
        newline
        ++ join (blankLine ++ newline)
             (map (fun b =>
                     join blankLine
                       ((fst b ++ lit ":") :: map (taskBlock L) (snd b)))
                  buckets)
    end.
Proof.
  destruct buckets as [|b bs]; [reflexivity|].
  rewrite <- (join_prefixed newline blankLine
                (fun b => join blankLine
                            ((fst b ++ lit ":") :: map (taskBlock L) (snd b))))
    by discriminate.
  f_equal. apply map_ext. intros [k tasks]. unfold bucketBlocks.
  apply join_cons_prefixed.
Qed.

(** ** The shape of a block *)

Lemma indentFrom_last (pad : jsstring) (b : bool) (s : jsstring)
  (c : codeunit) :
  exists init, indentFrom pad b (s ++ [c]) = init ++ [c].
Proof.
  revert b; induction s as [|x s IH]; intros b; simpl.
  - exists (if b && lineHasInk [c] then pad else []).
    reflexivity.
  - destruct (IH (isLineTerminator x)) as [init Hinit].
    exists ((if b && lineHasInk (x :: s ++ [c]) then pad else []) ++ x :: init).
    rewrite Hinit. now rewrite <- app_assoc.
Qed.

Lemma endsWithSpace_last (init : jsstring) (c : codeunit) :
  endsWithSpace (init ++ [c]) = isSpace c.
Proof.
  unfold endsWithSpace. now rewrite rev_app_distr.
Qed.

Lemma nonempty_last {A} (l : list A) :
  l <> [] -> exists init c, l = init ++ [c].
Proof.
  intros H. destruct (exists_last H) as [init [c E]]. now exists init, c.
Qed.

(** Every task block is a tab, the dash of the entry, and text that does
    not end with white space. *)
Lemma taskBlock_shape (L : Luxon) (task : row) :
  (exists body, taskBlock L task = 9 :: 45 :: body)
  /\ endsWithSpace (taskBlock L task) = false.
Proof.
  unfold taskBlock.
  set (rest := tpTitle task ++ _).
  assert (Heach : exists tail,
             trim (newline ++ lit "- " ++ rest) = 45 :: tail).
  { unfold trim, trimStart. simpl.
    rewrite (trimEnd_cons 45) by reflexivity. eauto. }
  destruct Heach as [tail Heach]. split.
  - rewrite Heach. unfold indentString. simpl. eauto.
  - destruct (nonempty_last (45 :: tail)) as [init [c E]]; [discriminate|].
    assert (Hc : isSpace c = false).
    { apply (trim_last (newline ++ lit "- " ++ rest) init). now rewrite Heach. }
    rewrite Heach, E. unfold indentString.
    destruct (indentFrom_last (repeatString tabulation 1) true init c)
      as [init' ->].
    now rewrite endsWithSpace_last.
Qed.

Lemma header_no_space (key : jsstring) (tasks : list row) :
  tasks <> [] -> Forall (fun t => projectKey t = key) tasks ->
  startsWithSpace (key ++ lit ":") = false.
Proof.
  intros Hne Hall. destruct tasks as [|t tasks]; [contradiction|].
  inversion Hall as [|? ? Hk _]; subst.
  unfold projectKey. destruct (trim (tpProject t)) as [|c r] eqn:E;
    [reflexivity|].
  simpl. exact (trim_head _ _ _ E).
Qed.

(** C7, as the code has it.  The text is the buckets joined by a blank
    line, each bucket its header line and its task blocks joined by a blank
    line.  A header line starts with a newline of its own, so two blank
    lines stand between a bucket and the next, and the text starts with a
    newline; after that newline the header has no white space before the
    project's name.  A task block is trimmed and then indented: it starts
    with a tab and the dash, and does not end with white space. *)
Theorem rendered_text_layout (L : Luxon) (json : list row) (text : jsstring) :
  copied (parseJson L json) = Ok text ->
  exists buckets : list (jsstring * list row),
    text
    = join blankLine (map (fun b => join blankLine (bucketBlocks L b)) buckets)
    /\ text
       = match buckets with
         | [] => []
         | _ =>
             newline
             ++ join (blankLine ++ newline)
                  (map (fun b =>
                          join blankLine
                            ((fst b ++ lit ":") :: map (taskBlock L) (snd b)))
                       buckets)
         end
    /\ Forall (fun b =>
                 snd b <> []
                 /\ Forall (fun t => projectKey t = fst b) (snd b)
                 /\ startsWithSpace (fst b ++ lit ":") = false)
         buckets
    /\ forall task,
         (exists body, taskBlock L task = 9 :: 45 :: body)
         /\ endsWithSpace (taskBlock L task) = false.
Proof.
  intros Hcopied. unfold parseJson, render in Hcopied. simpl in Hcopied.
  destruct (reduce (listTasksByProject L)
              (Array_sort sortByProjectAndCreation (dataSet json)) [])
    as [acc|e] eqn:R; [|discriminate].
  simpl in Hcopied. injection Hcopied as <-.
  destruct (reduce_buckets L _ [] acc [] (Forall2_nil _) R) as [ts [Hts _]].
  apply Forall2_exists in Hts.
  apply (Permutation_Forall (ownPropertyOrder_perm acc)) in Hts.
  apply Forall_exists_Forall2 in Hts as [ts' Hts'].
  unfold Object_values.
  exists (combine (map fst (ownPropertyOrder acc)) ts').
  assert (Hblocks :
            map snd (ownPropertyOrder acc)
            = map (bucketBlocks L)
                (combine (map fst (ownPropertyOrder acc)) ts')).
  { induction Hts' as [|[k v] tasks o ts0 [_ [Hb _]] _ IH]; simpl;
      [reflexivity|].
    simpl in Hb. now rewrite Hb, IH. }
  assert (Hall :
            Forall (fun b =>
                      snd b <> []
                      /\ Forall (fun t => projectKey t = fst b) (snd b)
                      /\ startsWithSpace (fst b ++ lit ":") = false)
              (combine (map fst (ownPropertyOrder acc)) ts')).
  { clear Hblocks.
    induction Hts' as [|[k v] tasks o ts0 [Hne [_ Hf]] _ IH]; simpl;
      [constructor|].
    constructor; [|exact IH]. repeat split; try assumption.
    now apply (header_no_space k tasks). }
  rewrite Hblocks, map_map. split; [reflexivity|]. split; [|split].
  - apply buckets_text.
  - exact Hall.
  - apply taskBlock_shape.
Qed.

(** Two projects with one task each. *)
Lemma rendered_text_layout_witness :
  exists buckets : list (jsstring * list row),
    newline ++ lit "A:" ++ blankLine ++ tabulation ++ lit "- x" ++ blankLine
    ++ newline ++ lit "B:" ++ blankLine ++ tabulation ++ lit "- y"
    = join blankLine
        (map (fun b => join blankLine (bucketBlocks luxonTokyo b)) buckets).
Proof.
  destruct (rendered_text_layout luxonTokyo
              [plainTask "B" "y"; plainTask "A" "x"]
              (newline ++ lit "A:" ++ blankLine ++ tabulation ++ lit "- x"
               ++ blankLine ++ newline ++ lit "B:" ++ blankLine
               ++ tabulation ++ lit "- y") eq_refl)
    as [buckets [H _]].
  now exists buckets.
Defined.

(** C7, as the claim has it: between two buckets stand two blank lines,
    and a task block begins with white space. *)
Lemma layout_two_blank_lines :
  copied (parseJson luxonTokyo [plainTask "B" "y"; plainTask "A" "x"])
  = Ok (newline ++ lit "A:" ++ blankLine ++ tabulation ++ lit "- x"
        ++ [10; 10; 10] ++ lit "B:" ++ blankLine ++ tabulation ++ lit "- y")
  /\ startsWithSpace (taskBlock luxonTokyo (plainTask "A" "x")) = true
  /\ startsWithSpace (newline ++ lit "A:") = true.
Proof. repeat split. Qed.

(** ** The order of the buckets *)

(** C6.  Two projects named [10] and [9].  The sort puts [10] first, so
    the grouping meets [10] first; the object lists its array-index keys by
    value, so the bucket of [9] is rendered first. *)
Theorem numeric_project_names_reordered :
  map tpProject
    (Array_sort sortByProjectAndCreation
       [plainTask "9" "b"; plainTask "10" "a"])
  = [lit "10"; lit "9"]
  /\ copied (parseJson luxonTokyo [plainTask "9" "b"; plainTask "10" "a"])
     = Ok (newline ++ lit "9:" ++ blankLine ++ tabulation ++ lit "- b"
           ++ blankLine ++ newline ++ lit "10:" ++ blankLine ++ tabulation
           ++ lit "- a").
Proof. split; reflexivity. Qed.

(** ** Further properties of the grouping *)

Lemma encounterOrder_Forall (P : jsstring -> Prop) (keys seen : list jsstring) :
  Forall P seen -> Forall P keys -> Forall P (encounterOrder seen keys).
Proof.
  unfold encounterOrder. revert seen.
  induction keys as [|k keys IH]; intros seen Hs Hk; simpl; [exact Hs|].
  inversion Hk; subst. apply IH; [|assumption].
  destruct (existsb (eqbs k) seen); [exact Hs|].
  apply Forall_app. split; [exact Hs|]. now constructor.
Qed.

Lemma encounterOrder_NoDup (keys seen : list jsstring) :
  NoDup seen -> NoDup (encounterOrder seen keys).
Proof.
  unfold encounterOrder. revert seen.
  induction keys as [|k keys IH]; intros seen Hs; simpl; [exact Hs|].
  apply IH. destruct (existsb (eqbs k) seen) eqn:E; [exact Hs|].
  apply NoDup_app; [exact Hs|repeat constructor; intros []|].
  intros x Hx [Hk|[]]. subst x.
  assert (existsb (eqbs k) seen = true) as C; [|congruence].
  apply existsb_exists. exists k. split; [exact Hx|apply eqbs_refl].
Qed.

Lemma ownPropertyOrder_plain {A} (o : list (jsstring * A)) :
  Forall (fun e => isArrayIndex (fst e) = false) o -> ownPropertyOrder o = o.
Proof.
  intros H. unfold ownPropertyOrder.
  assert (filter (fun e => isArrayIndex (fst e)) o = []) as ->.
  { induction H as [|e o He _ IH]; simpl; [reflexivity|]. now rewrite He. }
  simpl. induction H as [|e o He _ IH]; simpl; [reflexivity|].
  rewrite He. simpl. now rewrite IH.
Qed.

(** Grouping is a partition: after a pass that ends, the buckets hold the
    rows, each row once, each under its own project key, and no key has two
    buckets. *)
Theorem grouping_partition (L : Luxon) (rows : list row) (acc : projects) :
  reduce (listTasksByProject L) rows [] = Ok acc ->
  exists buckets : list (list row),
    Forall2 (bucketOf L) acc buckets
    /\ Permutation rows (List.concat buckets)
    /\ NoDup (map fst acc).
Proof.
  intros R.
  destruct (reduce_buckets L rows [] acc [] (Forall2_nil _) R)
    as [buckets [Hb Hp]].
  exists buckets. split; [exact Hb|]. split.
  - simpl in Hp. now rewrite app_nil_r in Hp.
  - rewrite (reduce_keys L rows [] acc R). apply encounterOrder_NoDup.
    constructor.
Qed.

Lemma grouping_partition_witness :
  exists buckets : list (list row),
    Permutation [plainTask "B" "y"; plainTask "A" "x"; plainTask "B" "z"]
      (List.concat buckets).
Proof.
  destruct (grouping_partition luxonTokyo
              [plainTask "B" "y"; plainTask "A" "x"; plainTask "B" "z"]
              _ eq_refl) as [buckets [_ [H _]]].
  now exists buckets.
Defined.

(** When no project key is an array index, the object lists the buckets in
    the order the pass first met their keys. *)
Theorem buckets_in_encounter_order (L : Luxon) (rows : list row)
  (acc : projects) :
  reduce (listTasksByProject L) rows [] = Ok acc ->
  forallb (fun t => negb (isArrayIndex (projectKey t))) rows = true ->
  map fst (ownPropertyOrder acc) = encounterOrder [] (map projectKey rows)
  /\ Object_values acc = map snd acc.
Proof.
  intros R Hplain.
  assert (Hkeys : Forall (fun e => isArrayIndex (fst e) = false) acc).
  { assert (Forall (fun k => isArrayIndex k = false) (map fst acc)) as H.
    { rewrite (reduce_keys L rows [] acc R).
      apply encounterOrder_Forall; [constructor|].
      apply Forall_forall. intros k Hk.
      apply in_map_iff in Hk as [t [<- Ht]].
      rewrite forallb_forall in Hplain. specialize (Hplain t Ht).
      now destruct (isArrayIndex (projectKey t)). }
    rewrite Forall_forall in H |- *. intros e He. apply H.
    now apply in_map. }
  unfold Object_values. rewrite (ownPropertyOrder_plain acc Hkeys).
  split; [|reflexivity]. exact (reduce_keys L rows [] acc R).
Qed.

Lemma buckets_in_encounter_order_witness :
  map fst
    (ownPropertyOrder
       [(lit "B", [newline ++ lit "B:"; tabulation ++ lit "- y"]);
        (lit "A", [newline ++ lit "A:"; tabulation ++ lit "- x"])])
  = [lit "B"; lit "A"].
Proof.
  apply (buckets_in_encounter_order luxonTokyo
           [plainTask "B" "y"; plainTask "A" "x"]); reflexivity.
Defined.

Lemma existsb_perm {A} (p : A -> bool) (l l' : list A) :
  Permutation l l' -> existsb p l = existsb p l'.
Proof.
  intros H. destruct (existsb p l') eqn:E.
  - apply existsb_exists in E as [x [Hx Hp]]. apply existsb_exists.
    exists x. split; [|exact Hp].
    apply (Permutation_in x (Permutation_sym H) Hx).
  - destruct (existsb p l) eqn:E'; [|reflexivity].
    apply existsb_exists in E' as [x [Hx Hp]].
    assert (existsb p l' = true) as C; [|congruence].
    apply existsb_exists. exists x. split; [|exact Hp].
    apply (Permutation_in x H Hx).
Qed.

(** A run ends with an exception, before [copy], exactly when a row of the
    data set has a project name that an object inherits, such as
    [constructor]: the accumulator reads the inherited member instead of a
    bucket. *)
Theorem parseJson_throws_iff (L : Luxon) (json : list row) :
  copied (parseJson L json) = Throw TypeError
  <-> existsb (fun t => inherited (projectKey t)) (dataSet json) = true.
Proof.
  unfold parseJson, render. simpl.
  rewrite (existsb_perm _ _ _
             (Array_sort_perm row sortByProjectAndCreation (dataSet json))).
  rewrite <- (reduce_throws L _ [] (Forall_nil _)).
  destruct (reduce (listTasksByProject L)
              (Array_sort sortByProjectAndCreation (dataSet json)) []);
    simpl; split; intros H; try discriminate H; now destruct e.
Qed.

Lemma parseJson_throws_iff_witness :
  copied (parseJson luxonTokyo [plainTask "constructor" "x"])
  = Throw TypeError.
Proof.
  apply (proj2 (parseJson_throws_iff luxonTokyo
                  [plainTask "constructor" "x"])).
  reflexivity.
Defined.

(** ** Further properties of the encoders *)

Lemma dropWhile_split {A} (p : A -> bool) (l : list A) :
  exists pre, l = pre ++ dropWhile p l /\ forallb p pre = true.
Proof.
  induction l as [|x l [pre [E F]]]; simpl.
  - now exists [].
  - destruct (p x) eqn:Px.
    + exists (x :: pre). simpl. rewrite Px, F. split; [|reflexivity].
      now rewrite <- E.
    + now exists [].
Qed.

Lemma forallb_rev {A} (p : A -> bool) (l : list A) :
  forallb p (rev l) = forallb p l.
Proof.
  induction l as [|x l IH]; simpl; [reflexivity|].
  rewrite forallb_app, IH. simpl. rewrite andb_true_r. apply andb_comm.
Qed.

Lemma trim_split (s : jsstring) :
  exists pre post,
    s = pre ++ trim s ++ post
    /\ forallb isSpace pre = true /\ forallb isSpace post = true.
Proof.
  unfold trim, trimStart, trimEnd.
  destruct (dropWhile_split isSpace s) as [pre [E F]].
  destruct (dropWhile_split isSpace (rev (dropWhile isSpace s)))
    as [post [E' F']].
  exists pre, (rev post). repeat split.
  - rewrite E at 1. f_equal.
    rewrite <- (rev_involutive (dropWhile isSpace s)) at 1.
    rewrite E' at 1. now rewrite rev_app_distr.
  - exact F.
  - now rewrite forallb_rev.
Qed.

Lemma trim_ends (s : jsstring) :
  startsWithSpace (trim s) = false /\ endsWithSpace (trim s) = false.
Proof.
  split.
  - destruct (trim s) as [|c r] eqn:E; [reflexivity|].
    simpl. exact (trim_head _ _ _ E).
  - destruct (trim s) as [|c r] eqn:E; [reflexivity|].
    destruct (nonempty_last (c :: r)) as [init [d E']]; [discriminate|].
    rewrite E', endsWithSpace_last. apply (trim_last s init).
    now rewrite E.
Qed.

(** Normalization of a string: the white space around it is cut off, and
    the fallback stands in when nothing is left. *)
Theorem cleanupStrings_trims (s : jsstring) (fallback : value) :
  cleanupStrings (str s) fallback
  = (if isEmpty (trim s) then fallback else str (trim s))
  /\ startsWithSpace (trim s) = false
  /\ endsWithSpace (trim s) = false
  /\ exists pre post,
       s = pre ++ trim s ++ post
       /\ forallb isSpace pre = true /\ forallb isSpace post = true.
Proof.
  split; [apply cleanupStrings_string|].
  destruct (trim_ends s) as [H1 H2]. repeat split; try assumption.
  apply trim_split.
Qed.

(** [tpFlagged] gives the tag exactly for a priority cell whose number is
    greater than zero; a cell whose number is zero, and a missing cell,
    give none. *)
Theorem tpFlagged_iff (item : row) :
  (tpFlagged item = lit " @flagged"
   <-> exists p, prop item "priority" = str p /\ StringToNumber p = Positive)
  /\ (tpFlagged item = []
      <-> ~ exists p,
            prop item "priority" = str p /\ StringToNumber p = Positive).
Proof.
  unfold tpFlagged, greaterThanZero, ToNumber.
  destruct (prop item "priority") as [| |p]; simpl.
  - split; split; try discriminate; auto.
    + intros [p [E _]]. discriminate E.
    + intros _ [p [E _]]. discriminate E.
  - split; split; try discriminate; auto.
    + intros [p [E _]]. discriminate E.
    + intros _ [p [E _]]. discriminate E.
  - destruct (StringToNumber p) eqn:E; split; split; try discriminate; auto;
      try (intros [q [[= <-] Hq]]; congruence);
      try (intros _ [q [[= <-] Hq]]; congruence);
      try (intros _; now exists p);
      try (intros H; exfalso; apply H; now exists p).
Qed.

Lemma nameText_folder (v : value) :
  ToString (if truthy v then cleanupStrings1 v else str []) = nameText v.
Proof.
  destruct v as [| |[|c s]]; simpl; try reflexivity.
  apply cleanupStrings1_string.
Qed.

Lemma trim_idempotent (s : jsstring) : trim (trim s) = trim s.
Proof.
  destruct (trim s) as [|c r] eqn:E; [reflexivity|].
  pose proof (trim_head _ _ _ E) as Hc.
  destruct (nonempty_last (c :: r)) as [init [d E']]; [discriminate|].
  assert (Hd : isSpace d = false).
  { apply (trim_last s init). now rewrite E. }
  unfold trim, trimStart. simpl. rewrite Hc.
  unfold trimEnd. rewrite E', rev_app_distr. simpl. rewrite Hd.
  simpl. now rewrite rev_involutive.
Qed.

(** The project string: the trimmed folder and list names joined by a
    space and trimmed again, a missing name counting as empty.  It carries
    no white space around it, so it is the bucket key as it is, and it is
    empty when both names are. *)
Theorem tpProject_spec (item : row) :
  tpProject item
  = trim (nameText (prop item "folderName") ++ lit " "
          ++ nameText (prop item "listName"))
  /\ projectKey item = tpProject item
  /\ (nameText (prop item "folderName") = [] ->
      nameText (prop item "listName") = [] -> tpProject item = []).
Proof.
  assert (E : tpProject item
              = trim (nameText (prop item "folderName") ++ lit " "
                      ++ nameText (prop item "listName"))).
  { unfold tpProject.
    pose proof (nameText_folder (prop item "folderName")) as Hf.
    pose proof (nameText_folder (prop item "listName")) as Hl.
    destruct (if truthy (prop item "folderName")
              then cleanupStrings1 (prop item "folderName") else str [])
      as [| |f] eqn:Ef;
      try (destruct (truthy (prop item "folderName"));
           [unfold cleanupStrings1, cleanupStrings, orElse in Ef; simpl in Ef;
            destruct (trim (ToString (prop item "folderName")));
            discriminate Ef|discriminate Ef]).
    destruct (if truthy (prop item "listName")
              then cleanupStrings1 (prop item "listName") else str [])
      as [| |l] eqn:El;
      try (destruct (truthy (prop item "listName"));
           [unfold cleanupStrings1, cleanupStrings, orElse in El; simpl in El;
            destruct (trim (ToString (prop item "listName")));
            discriminate El|discriminate El]).
    simpl in Hf, Hl. rewrite <- Hf, <- Hl.
    rewrite cleanupStrings1_string.
    unfold orElse. destruct f as [|c f]; simpl; [|reflexivity].
    destruct l as [|d l]; reflexivity. }
  split; [exact E|]. split.
  - unfold projectKey. rewrite E. apply trim_idempotent.
  - intros Hf Hl. rewrite E, Hf, Hl. reflexivity.
Qed.

Lemma fragment_inj (pre post d d' : jsstring) :
  pre ++ d ++ post = pre ++ d' ++ post -> d = d'.
Proof.
  intros H. apply app_inv_head in H. now apply app_inv_tail in H.
Qed.

(** The defer and due tags: each is written exactly when formatting the
    creation time, or the due date, gives a non-empty string, and holds that
    string. *)
Theorem date_tags (L : Luxon) (item : row) :
  let created :=
    reformatDates L (prop item "createdTime") (prop item "timezone") in
  let due := reformatDates L (prop item "dueDate") (prop item "timezone") in
  (forall d,
      tpDefer L item = lit " @defer(" ++ d ++ lit ")"
      <-> created = str d /\ d <> [])
  /\ (tpDefer L item = [] <-> ~ exists d, created = str d /\ d <> [])
  /\ (forall d,
        tpDue L item = lit " @due(" ++ d ++ lit ")"
        <-> due = str d /\ d <> [])
  /\ (tpDue L item = [] <-> ~ exists d, due = str d /\ d <> []).
Proof.
  intros created due. unfold tpDefer, tpDue. fold created. fold due.
  assert (Hgen : forall (pre : jsstring) (date : value),
             pre <> [] ->
             (forall d,
                 (if truthy date then pre ++ ToString date ++ lit ")" else [])
                 = pre ++ d ++ lit ")"
                 <-> date = str d /\ d <> [])
             /\ ((if truthy date then pre ++ ToString date ++ lit ")" else [])
                 = []
                 <-> ~ exists d, date = str d /\ d <> [])).
  { intros pre date Hpre. destruct (truthy date) eqn:T.
    - apply truthy_str in T as [d' [E N]]. subst date. simpl. split.
      + intros d. split.
        * intros H. apply fragment_inj in H. now subst.
        * intros [[= <-] _]. reflexivity.
      + split.
        * intros H. destruct pre; [contradiction|discriminate H].
        * intros H. exfalso. apply H. now exists d'.
    - split.
      + intros d. split.
        * intros H. destruct pre; [contradiction|discriminate H].
        * intros [E N].
          assert (truthy date = true) as C; [|congruence].
          apply truthy_str. now exists d.
      + split; [|reflexivity].
        intros _ H. apply truthy_str in H. congruence. }
  destruct (Hgen (lit " @defer(") created ltac:(discriminate)) as [A1 A2].
  destruct (Hgen (lit " @due(") due ltac:(discriminate)) as [B1 B2].
  split; [exact A1|]. split; [exact A2|]. split; [exact B1|exact B2].
Qed.

(** The scenario of the specification, in a zone the environment knows. *)
Lemma date_tags_witness :
  tpDue luxonTokyo dueTask
  = lit " @due(" ++ lit "03/15/2024 9:00:00 AM" ++ lit ")".
Proof.
  apply (proj2 (proj1 (proj2 (proj2 (date_tags luxonTokyo dueTask))) _)).
  split; [reflexivity|discriminate].
Defined.

(** ** The scenario of the specification *)

(** A backup with its header and one task: one bucket, one entry, the note
    one level deeper. *)
Example scenario_text :
  parseJson luxonTokyo [headerRow; rentTask]
  = {| reported := [];
       copied :=
         Ok (newline ++ lit "Work Admin:" ++ blankLine ++ tabulation
             ++ lit "- Pay rent  @defer(03/01/2024 9:00:00 PM)"
             ++ lit " @due(03/15/2024 9:00:00 AM)"
             ++ lit "  @flagged @tags(bills, priority-1)" ++ newline
             ++ tabulation ++ tabulation ++ lit " call landlord") |}.
Proof. reflexivity. Qed.

(** The sign class of a cell's number, on the shapes a cell can take. *)
Example number_classes :
  map StringToNumber
    [lit "0"; lit ""; lit " 0 "; lit "0.0"; lit "-0"; lit "0x0"; lit "1e-400";
     lit "1"; lit "5"; lit ".5"; lit "1e5"; lit "0x1F"; lit "Infinity";
     lit "-1"; lit "-Infinity"; lit "abc"; lit "1 2"; lit "+0x1"; lit "0x"]
  = [Zero; Zero; Zero; Zero; Zero; Zero; Zero;
     Positive; Positive; Positive; Positive; Positive; Positive;
     Negative; Negative; NaN; NaN; NaN; NaN].
Proof. vm_compute. reflexivity. Qed.

(** The header labels of a backup give the script's header names. *)
Example header_labels :
  Object_keys headerRow = headers /\ isHeaderRow headerRow = true.
Proof. split; reflexivity. Qed.

(** ** More on the date formatter *)

(** [reformatDates] gives [null] exactly for an instant that is missing,
    empty or not one [luxon] reads; for any other instant it gives a
    string, what the library formats in the zone handed to it as it came.
    It never gives [undefined]. *)
Theorem reformatDates_null_iff (L : Luxon) (instant zone : value) :
  (reformatDates L instant zone = null
   <-> truthy instant = false
       \/ isValid L (fromISO L (ToString instant)) = false)
  /\ (reformatDates L instant zone = null
      \/ reformatDates L instant zone
         = str (toFormat L
                  (setZone L (toUTC L (fromISO L (ToString instant))) zone)
                  dateFormat))
  /\ reformatDates L instant zone <> undefined.
Proof.
  unfold reformatDates.
  destruct (truthy instant); simpl.
  - destruct (isValid L (fromISO L (ToString instant))); simpl.
    + split; [|split; [now right|discriminate]].
      split; [discriminate|]. intros [H|H]; discriminate H.
    + split; [|split; [now left|discriminate]].
      split; auto.
  - split; [|split; [now left|discriminate]].
    split; auto.
Qed.

(** ** More on the camel-case transform *)



Lemma split_no_separator (sep : codeunit) (s w : jsstring) :
  In w (split sep s) -> ~ In sep w.
Proof.
  revert w; induction s as [|c t IH]; intros w; simpl.
  - intros [<-|[]] [].
  - destruct (N.eqb_spec c sep) as [->|Hc].
    + intros [<-|Hin]; [intros []|now apply IH].
    + destruct (split sep t) as [|w0 ws] eqn:E.
      * intros [<-|[]] [H|[]]. congruence.
      * intros [<-|Hin].
        -- intros [H|H]; [congruence|].
           apply (IH w0); [now left|exact H].
        -- apply IH. now right.
Qed.


Lemma split_single (sep : codeunit) (s : jsstring) :
  ~ In sep s -> split sep s = [s].
Proof.
  induction s as [|c t IH]; simpl; [reflexivity|].
  intros H. destruct (N.eqb_spec c sep) as [->|Hc].
  - exfalso. apply H. now left.
  - rewrite IH; [reflexivity|]. intros Hin. apply H. now right.
Qed.





(** ** More on the encoders *)

(** The repeat tag is written exactly when the trimmed text of the repeat
    cell is not empty, and holds that text; a cell of white space gives no
    tag, and a tag never holds an empty rule or one with white space
    around it. *)
Theorem tpRepeat_spec (item : row) :
  let rule := trim (ToString (prop item "repeat")) in
  tpRepeat item
  = (if isEmpty rule then []
     else lit " @repeat-method(fixed) @repeat-rule(" ++ rule ++ lit ")")
  /\ startsWithSpace rule = false
  /\ endsWithSpace rule = false
  /\ tpRepeat item <> lit " @repeat-method(fixed) @repeat-rule()".
Proof.
  intros rule. destruct (trim_ends (ToString (prop item "repeat"))) as [H1 H2].
  assert (E : tpRepeat item
              = (if isEmpty rule then []
                 else lit " @repeat-method(fixed) @repeat-rule(" ++ rule
                      ++ lit ")")).
  { unfold tpRepeat, cleanupStrings, orElse. fold rule. simpl.
    now destruct rule. }
  repeat split; try assumption.
  rewrite E. destruct rule as [|c r]; simpl; [discriminate|].
  intros H. apply (f_equal (@List.length N)) in H.
  simpl in H. rewrite length_app in H. simpl in H. lia.
Qed.

Lemma tpTags_without_priority (item : row) :
  truthy (prop item "priority") = false ->
  tpTags item
  = (if isEmpty (trim (ToString (prop item "tags"))) then []
     else lit " @tags(" ++ trim (ToString (prop item "tags")) ++ lit ")").
Proof.
  intros Hp. unfold tpTags, cleanupStrings1, cleanupStrings, orElse.
  rewrite Hp. simpl.
  destruct (trim (ToString (prop item "tags"))); reflexivity.
Qed.

Lemma tpTags_with_priority (item : row) (priority : jsstring) :
  prop item "priority" = str priority -> priority <> [] ->
  tpTags item
  = lit " @tags(" ++ trim (ToString (prop item "tags"))
    ++ (if isEmpty (trim (ToString (prop item "tags"))) then []
        else lit ", ")
    ++ lit "priority-" ++ priority ++ lit ")".
Proof.
  intros Hp Hne. unfold tpTags, cleanupStrings1, cleanupStrings, orElse.
  rewrite Hp. simpl.
  destruct priority as [|c p]; [contradiction|]. simpl.
  destruct (trim (ToString (prop item "tags"))); reflexivity.
Qed.

(** The tags fragment holds the trimmed tags text as it is, then the
    priority text when the priority cell is a string that is not empty,
    with a comma between the two when both are there; it is written
    exactly when one of the two is there, so it never has empty
    parentheses. *)
Theorem tpTags_spec (item : row) :
  let tags := trim (ToString (prop item "tags")) in
  (truthy (prop item "priority") = false ->
   tpTags item
   = (if isEmpty tags then [] else lit " @tags(" ++ tags ++ lit ")"))
  /\ (forall priority,
        prop item "priority" = str priority -> priority <> [] ->
        tpTags item
        = lit " @tags(" ++ tags
          ++ (if isEmpty tags then [] else lit ", ")
          ++ lit "priority-" ++ priority ++ lit ")")
  /\ tpTags item <> lit " @tags()".
Proof.
  intros tags. split; [apply tpTags_without_priority|].
  split; [apply tpTags_with_priority|].
  destruct (truthy (prop item "priority")) eqn:T.
  - apply truthy_str in T as [p [Hp Hne]].
    rewrite (tpTags_with_priority item p Hp Hne). fold tags.
    intros H. apply (f_equal (@List.length N)) in H.
    rewrite !length_app in H. simpl in H. lia.
  - rewrite (tpTags_without_priority item T). fold tags.
    destruct tags as [|c t]; simpl; [discriminate|].
    intros H. apply (f_equal (@List.length N)) in H. simpl in H.
    rewrite length_app in H. simpl in H. lia.
Qed.

Lemma tpTags_spec_witness :
  tpTags rentTask
  = lit " @tags(" ++ trim (ToString (prop rentTask "tags"))
    ++ (if isEmpty (trim (ToString (prop rentTask "tags"))) then []
        else lit ", ")
    ++ lit "priority-" ++ lit "1" ++ lit ")".
Proof.
  apply (proj1 (proj2 (tpTags_spec rentTask)) (lit "1"));
    [reflexivity|discriminate].
Defined.

(** Normalizing twice is normalizing once, whatever the value; with the
    default fallback the result is always a string without white space
    around it, and that is what the title of an entry is. *)
Theorem cleanupStrings1_idempotent (v : value) :
  cleanupStrings1 (cleanupStrings1 v) = cleanupStrings1 v
  /\ (exists s, cleanupStrings1 v = str s
                /\ startsWithSpace s = false /\ endsWithSpace s = false)
  /\ (forall item, trim (tpTitle item) = tpTitle item).
Proof.
  assert (E : forall w, cleanupStrings1 w = str (trim (ToString w))).
  { intros w. unfold cleanupStrings1, cleanupStrings, orElse. simpl.
    now destruct (trim (ToString w)). }
  split; [|split].
  - rewrite !E. simpl. now rewrite trim_idempotent.
  - exists (trim (ToString v)). split; [apply E|apply trim_ends].
  - intros item. unfold tpTitle. rewrite E. simpl. apply trim_idempotent.
Qed.

(** ** More on header detection *)

Lemma findIndex_app {A} (p : A -> bool) (pre : list A) (h : A)
  (rest : list A) :
  forallb (fun x => negb (p x)) pre = true -> p h = true ->
  findIndex p (pre ++ h :: rest) = Z.of_nat (List.length pre).
Proof.
  intros Hpre Hh. induction pre as [|x pre IH]; simpl in *.
  - now rewrite Hh.
  - apply andb_true_iff in Hpre as [Hx Hpre].
    destruct (p x); [discriminate Hx|].
    rewrite (IH Hpre).
    destruct (Z.ltb_spec (Z.of_nat (List.length pre)) 0); lia.
Qed.

(** Whatever stands before the header does not reach the output, and only
    the first header is taken out: with lines before it that do not pass
    the header test, the data set is what follows the header, whatever it
    holds, nothing is reported, and the text is the one the table gives
    without those lines. *)
Theorem dataSet_after_header (L : Luxon) (pre : list row) (header : row)
  (data : list row) :
  forallb (fun r => negb (isHeaderRow r)) pre = true ->
  isHeaderRow header = true ->
  dataSet (pre ++ header :: data) = data
  /\ reported (parseJson L (pre ++ header :: data)) = []
  /\ copied (parseJson L (pre ++ header :: data))
     = copied (parseJson L (header :: data)).
Proof.
  intros Hpre Hh.
  assert (Hi : headerRowIndex (pre ++ header :: data)
               = Z.of_nat (List.length pre)).
  { unfold headerRowIndex. now apply findIndex_app. }
  assert (Hd : dataSet (pre ++ header :: data) = data).
  { unfold dataSet. rewrite Hi.
    replace (Z.of_nat (List.length pre) + 1)%Z
      with (Z.of_nat (S (List.length pre))) by lia.
    rewrite splice_from.
    replace (S (List.length pre)) with (List.length (pre ++ [header]))
      by (rewrite length_app; simpl; lia).
    replace (pre ++ header :: data) with ((pre ++ [header]) ++ data)
      by (now rewrite <- app_assoc).
    now rewrite skipn_app, skipn_all, Nat.sub_diag. }
  assert (Hd0 : dataSet (header :: data) = data).
  { unfold dataSet, headerRowIndex. simpl. now rewrite Hh. }
  split; [exact Hd|]. split.
  - unfold parseJson. simpl. rewrite Hi.
    destruct (Z.ltb_spec (Z.of_nat (List.length pre)) 0); [lia|reflexivity].
  - unfold parseJson. simpl. now rewrite Hd, Hd0.
Qed.

(** A line before the header, and a second header after it. *)
Lemma dataSet_after_header_witness :
  dataSet ([shortRow] ++ headerRow :: [rentTask; headerRow])
  = [rentTask; headerRow].
Proof.
  apply (dataSet_after_header luxonTokyo [shortRow] headerRow
           [rentTask; headerRow]); reflexivity.
Defined.

(** ** More on sorting *)

Section SortedOnce.

Variable A : Type.
Variable cmp : A -> A -> Z.

Lemma insertSorted_first (x : A) (l : list A) :
  Forall (notAfter cmp x) l -> insertSorted cmp x l = x :: l.
Proof.
  destruct l as [|y t]; [reflexivity|].
  intros H. inversion H as [|? ? Hy _]; subst. simpl.
  unfold notAfter in Hy. now rewrite Hy.
Qed.

(** Sorting what is in order changes nothing. *)
Lemma Array_sort_sorted_id (l : list A) :
  StronglySorted (notAfter cmp) l -> Array_sort cmp l = l.
Proof.
  induction 1 as [|x l Hs IH Hall]; [reflexivity|].
  simpl. rewrite IH. now apply insertSorted_first.
Qed.

(** Two arrangements in order of the same elements are one, when no two
    different elements tie. *)
Lemma sorted_perm_unique (l1 l2 : list A) :
  StronglySorted (notAfter cmp) l1 -> StronglySorted (notAfter cmp) l2 ->
  Permutation l1 l2 ->
  (forall a b, In a l1 -> In b l1 ->
               notAfter cmp a b -> notAfter cmp b a -> a = b) ->
  l1 = l2.
Proof.
  intros H1. revert l2.
  induction H1 as [|a t1 Hs1 IH Hall1]; intros l2 H2 Hp Hanti.
  - apply Permutation_nil in Hp. now subst.
  - destruct l2 as [|b t2].
    + apply Permutation_sym, Permutation_nil in Hp. discriminate Hp.
    + inversion H2 as [|? ? Hs2 Hall2]; subst.
      assert (Hab : a = b).
      { assert (In a (b :: t2)) as Ha
            by (apply (Permutation_in a Hp); now left).
        assert (In b (a :: t1)) as Hb
            by (apply (Permutation_in b (Permutation_sym Hp)); now left).
        destruct Ha as [Ha|Ha]; [now symmetry|].
        destruct Hb as [Hb|Hb]; [exact Hb|].
        rewrite Forall_forall in Hall1, Hall2.
        apply Hanti; [now left|now right|now apply Hall1|now apply Hall2]. }
      subst b. f_equal. apply IH.
      * exact Hs2.
      * now apply Permutation_cons_inv with a.
      * intros x y Hx Hy. apply Hanti; now right.
Qed.

End SortedOnce.

Lemma inOrder_antisym (a b : row) :
  hasCreatedTime a = true -> hasCreatedTime b = true ->
  inOrder a b -> inOrder b a -> sameSortKey a b = true.
Proof.
  unfold hasCreatedTime, inOrder, sameSortKey.
  destruct (prop a "createdTime") as [| |ta]; try discriminate.
  destruct (prop b "createdTime") as [| |tb]; try discriminate.
  simpl. intros _ _ [Hab|[Hab Tab]] [Hba|[Hba Tba]].
  - rewrite (ltbs_asym _ _ Hab) in Hba. discriminate Hba.
  - rewrite Hba, ltbs_irrefl in Hab. discriminate Hab.
  - rewrite Hab, ltbs_irrefl in Hba. discriminate Hba.
  - rewrite Hab, eqbs_refl. simpl.
    rewrite (ltbs_connected _ _ Tba Tab). apply eqbs_refl.
Qed.

Lemma sorted_rows (rows : list row) :
  forallb hasCreatedTime rows = true ->
  StronglySorted (notAfter sortByProjectAndCreation)
    (Array_sort sortByProjectAndCreation rows).
Proof.
  intros Hok.
  apply Array_sort_sorted with (ok := fun r => hasCreatedTime r = true).
  - apply comparator_total.
  - intros a b c Ha Hb Hc Hab Hbc. apply comparator_inOrder.
    apply comparator_inOrder in Hab, Hbc.
    now apply (inOrder_trans a b c).
  - apply Forall_forall. now apply forallb_forall.
Qed.

(** Sorting is idempotent: for rows that all have a creation time, the
    sorted rows are not moved by sorting them again. *)
Theorem sort_idempotent (rows : list row) :
  forallb hasCreatedTime rows = true ->
  Array_sort sortByProjectAndCreation
    (Array_sort sortByProjectAndCreation rows)
  = Array_sort sortByProjectAndCreation rows.
Proof.
  intros Hok. apply Array_sort_sorted_id. now apply sorted_rows.
Qed.

Lemma sort_idempotent_witness :
  Array_sort sortByProjectAndCreation
    (Array_sort sortByProjectAndCreation [bangList; paddedList; bangList])
  = Array_sort sortByProjectAndCreation [bangList; paddedList; bangList].
Proof.
  apply (sort_idempotent [bangList; paddedList; bangList]). reflexivity.
Defined.

(** The order of the rows in the backup does not reach the output: when the
    rows all have a creation time and no two different rows have the same
    comparator project string and creation time, every arrangement of them
    sorts to the same sequence and so renders to the same text. *)
Theorem sort_ignores_input_order (L : Luxon) (rows rows' : list row) :
  forallb hasCreatedTime rows = true ->
  (forall a b, In a rows -> In b rows -> sameSortKey a b = true -> a = b) ->
  Permutation rows rows' ->
  Array_sort sortByProjectAndCreation rows
  = Array_sort sortByProjectAndCreation rows'
  /\ render L (Array_sort sortByProjectAndCreation rows)
     = render L (Array_sort sortByProjectAndCreation rows').
Proof.
  intros Hok Hdistinct Hperm.
  assert (Hok' : forallb hasCreatedTime rows' = true).
  { apply forallb_forall. intros r Hr. rewrite forallb_forall in Hok.
    apply Hok. apply (Permutation_in r (Permutation_sym Hperm) Hr). }
  assert (E : Array_sort sortByProjectAndCreation rows
              = Array_sort sortByProjectAndCreation rows').
  { apply (sorted_perm_unique row sortByProjectAndCreation).
    - now apply sorted_rows.
    - now apply sorted_rows.
    - eapply perm_trans; [apply Permutation_sym, Array_sort_perm|].
      eapply perm_trans; [exact Hperm|apply Array_sort_perm].
    - intros a b Ha Hb Hab Hba.
      assert (In a rows) as Ha'
          by (apply (Permutation_in a (Permutation_sym (Array_sort_perm _ _ rows)) Ha)).
      assert (In b rows) as Hb'
          by (apply (Permutation_in b (Permutation_sym (Array_sort_perm _ _ rows)) Hb)).
      apply Hdistinct; try assumption.
      rewrite forallb_forall in Hok.
      apply inOrder_antisym; auto; now apply comparator_inOrder. }
  split; [exact E|now rewrite E].
Qed.

Lemma sort_ignores_input_order_witness :
  Array_sort sortByProjectAndCreation [bangList; paddedList]
  = Array_sort sortByProjectAndCreation [paddedList; bangList].
Proof.
  apply (sort_ignores_input_order luxonTokyo [bangList; paddedList]
           [paddedList; bangList]).
  - reflexivity.
  - intros a b [<-|[<-|[]]] [<-|[<-|[]]] H; try reflexivity; discriminate H.
  - apply perm_swap.
Defined.

(** ** More on the grouping *)

Lemma setOwn_Forall (P P' : jsstring * list jsstring -> Prop)
  (acc : projects) (key : jsstring) (v : list jsstring) :
  NoDup (map fst acc) -> Forall P acc -> P' (key, v) ->
  (forall e, In e acc -> fst e <> key -> P e -> P' e) ->
  Forall P' (setOwn acc key v).
Proof.
  induction acc as [|[k old] rest IH]; simpl; intros Hnd Hall Hnew Hkeep.
  - now constructor.
  - inversion Hnd as [|? ? Hnotin Hnd']; subst.
    inversion Hall as [|? ? Hhead Hrest]; subst.
    destruct (eqbs k key) eqn:E.
    + apply eqbs_eq in E. subst k. constructor; [exact Hnew|].
      apply Forall_forall. intros e He.
      rewrite Forall_forall in Hrest.
      apply Hkeep; [now right| |now apply Hrest].
      intros Hk. apply Hnotin. rewrite <- Hk. now apply in_map.
    + apply eqbs_neq in E. constructor.
      * apply Hkeep; [now left|exact E|exact Hhead].
      * apply IH; auto; intros e He; apply Hkeep; now right.
Qed.

Lemma existsb_eqbs_in (key : jsstring) (keys : list jsstring) :
  existsb (eqbs key) keys = true <-> In key keys.
Proof.
  rewrite existsb_exists. split.
  - intros [x [Hx E]]. apply eqbs_eq in E. now subst.
  - intros H. exists key. split; [exact H|apply eqbs_refl].
Qed.

Section GroupContents.

Variable L : Luxon.

Lemma listTasksByProject_contents (done : list row) (acc acc' : projects)
  (task : row) :
  NoDup (map fst acc) -> Forall (bucketHolds L done) acc ->
  (forall t, In t done -> In (projectKey t) (map fst acc)) ->
  listTasksByProject L acc task = Ok acc' ->
  NoDup (map fst acc')
  /\ Forall (bucketHolds L (done ++ [task])) acc'
  /\ (forall t, In t (done ++ [task]) -> In (projectKey t) (map fst acc')).
Proof.
  intros Hnd Hall Hkeys. rewrite listTasksByProject_eq.
  assert (Hother : forall e, In e acc -> fst e <> projectKey task ->
                             bucketHolds L done e -> bucketHolds L (done ++ [task]) e).
  { intros e _ Hne He. unfold bucketHolds, groupOf in *. simpl in *.
    rewrite He. rewrite filter_app. simpl.
    destruct (eqbs (projectKey task) (fst e)) eqn:E.
    - apply eqbs_eq in E. congruence.
    - now rewrite app_nil_r. }
  assert (Hgrow : forall v t,
             In t (done ++ [task]) ->
             In (projectKey t)
               (map fst (setOwn acc (projectKey task) v))).
  { intros v t Ht. rewrite keys_setOwn.
    apply in_app_or in Ht as [Ht|[<-|[]]].
    - specialize (Hkeys t Ht).
      destruct (existsb (eqbs (projectKey task)) (map fst acc));
        [exact Hkeys|]. apply in_or_app. now left.
    - destruct (existsb (eqbs (projectKey task)) (map fst acc)) eqn:E.
      + now apply existsb_eqbs_in.
      + apply in_or_app. right. now left. }
  assert (Hnd' : forall v,
             NoDup (map fst (setOwn acc (projectKey task) v))).
  { intros v. rewrite keys_setOwn.
    destruct (existsb (eqbs (projectKey task)) (map fst acc)) eqn:E;
      [exact Hnd|].
    apply NoDup_app; [exact Hnd|repeat constructor; intros []|].
    intros x Hx [Hk|[]]. subst x.
    apply existsb_eqbs_in in Hx. congruence. }
  destruct (getOwn acc (projectKey task)) as [blocks|] eqn:G.
  - intros [= <-]. split; [apply Hnd'|]. split; [|apply Hgrow].
    apply (setOwn_Forall (bucketHolds L done)); auto.
    apply getOwn_in in G. rewrite Forall_forall in Hall.
    specialize (Hall _ G). unfold bucketHolds, groupOf in *. simpl in *.
    rewrite Hall, filter_app. simpl. rewrite eqbs_refl.
    now rewrite map_app.
  - destruct (inherited (projectKey task)); [discriminate|].
    intros [= <-]. split; [apply Hnd'|]. split; [|apply Hgrow].
    apply (setOwn_Forall (bucketHolds L done)); auto.
    unfold bucketHolds, groupOf. simpl. rewrite filter_app. simpl.
    rewrite eqbs_refl.
    assert (filter (fun t => eqbs (projectKey t) (projectKey task)) done = [])
      as ->; [|reflexivity].
    assert (Hnot : ~ In (projectKey task) (map fst acc)).
    { intros Hin. apply existsb_eqbs_in in Hin.
      rewrite getOwn_keys, G in Hin. discriminate Hin. }
    clear - Hkeys Hnot. induction done as [|t done IH]; [reflexivity|].
    simpl. destruct (eqbs (projectKey t) (projectKey task)) eqn:E.
    + apply eqbs_eq in E. exfalso. apply Hnot. rewrite <- E.
      apply Hkeys. now left.
    + apply IH. intros t' Ht'. apply Hkeys. now right.
Qed.

Lemma reduce_contents (rows done : list row) (acc acc' : projects) :
  NoDup (map fst acc) -> Forall (bucketHolds L done) acc ->
  (forall t, In t done -> In (projectKey t) (map fst acc)) ->
  reduce (listTasksByProject L) rows acc = Ok acc' ->
  Forall (bucketHolds L (done ++ rows)) acc'.
Proof.
  revert done acc; induction rows as [|task rows IH];
    intros done acc Hnd Hall Hkeys; simpl.
  - intros [= <-]. now rewrite app_nil_r.
  - destruct (listTasksByProject L acc task) as [acc1|e] eqn:E;
      [|discriminate].
    destruct (listTasksByProject_contents _ _ _ _ Hnd Hall Hkeys E)
      as [Hnd1 [Hall1 Hkeys1]].
    simpl. intros R.
    replace (done ++ task :: rows) with ((done ++ [task]) ++ rows)
      by (now rewrite <- app_assoc).
    now apply (IH (done ++ [task]) acc1).
Qed.

Lemma reduce_groupOf (rows : list row) (acc : projects) :
  reduce (listTasksByProject L) rows [] = Ok acc ->
  acc = map (groupOf L rows) (encounterOrder [] (map projectKey rows)).
Proof.
  intros R.
  pose proof (reduce_contents rows [] [] acc (NoDup_nil _) (Forall_nil _)
                (fun t H => match H with end) R) as Hall.
  pose proof (reduce_keys L rows [] acc R) as Hkeys.
  simpl in Hall, Hkeys. rewrite <- Hkeys.
  clear R Hkeys. induction Hall as [|[k v] acc Hk _ IH]; [reflexivity|].
  simpl. rewrite <- IH. f_equal. unfold bucketHolds, groupOf in *. simpl in *.
  now rewrite Hk.
Qed.

(** The pass, when it ends, leaves exactly this: one bucket for each
    project key, in the order the keys were first met, holding the header
    line of the key and then the blocks of the rows of that key in the
    order of the pass. *)
Theorem grouping_contents (rows : list row) (acc : projects) :
  reduce (listTasksByProject L) rows [] = Ok acc ->
  acc = map (groupOf L rows) (encounterOrder [] (map projectKey rows)).
Proof. apply reduce_groupOf. Qed.

End GroupContents.

Lemma grouping_contents_witness :
  [groupOf luxonTokyo
     [plainTask "B" "y"; plainTask "A" "x"; plainTask "B" "z"] (lit "B");
   groupOf luxonTokyo
     [plainTask "B" "y"; plainTask "A" "x"; plainTask "B" "z"] (lit "A")]
  = map (groupOf luxonTokyo
           [plainTask "B" "y"; plainTask "A" "x"; plainTask "B" "z"])
      (encounterOrder []
         (map projectKey
            [plainTask "B" "y"; plainTask "A" "x"; plainTask "B" "z"])).
Proof.
  apply (grouping_contents luxonTokyo
           [plainTask "B" "y"; plainTask "A" "x"; plainTask "B" "z"]).
  reflexivity.
Defined.







(** ** More on the blocks *)

Lemma dropWhile_app_stop {A} (p : A -> bool) (l : list A) (c : A)
  (r : list A) :
  p c = false -> dropWhile p (l ++ c :: r) = dropWhile p l ++ c :: r.
Proof.
  intros Hc. induction l as [|x l IH]; simpl.
  - now rewrite Hc.
  - destruct (p x); [exact IH|reflexivity].
Qed.

Lemma trimEnd_app_keep (a b : jsstring) :
  a <> [] -> endsWithSpace a = false -> trimEnd (a ++ b) = a ++ trimEnd b.
Proof.
  intros Hne Hend.
  destruct (nonempty_last a Hne) as [init [c ->]].
  rewrite endsWithSpace_last in Hend.
  unfold trimEnd. rewrite !rev_app_distr. simpl.
  rewrite (dropWhile_app_stop isSpace (rev b) c (rev init) Hend).
  rewrite rev_app_distr. simpl. now rewrite rev_involutive.
Qed.

Lemma indentFrom_inline (pad a s : jsstring) :
  forallb (fun c => negb (isLineTerminator c)) a = true ->
  indentFrom pad false (a ++ s) = a ++ indentFrom pad false s.
Proof.
  induction a as [|c a IH]; simpl; [reflexivity|].
  intros H. apply andb_true_iff in H as [Hc Ha].
  destruct (isLineTerminator c); [discriminate Hc|].
  now rewrite (IH Ha).
Qed.

Lemma endsWithSpace_cons (c : codeunit) (s : jsstring) :
  s <> [] -> endsWithSpace (c :: s) = endsWithSpace s.
Proof.
  intros Hne. destruct (nonempty_last s Hne) as [init [d ->]].
  change (c :: init ++ [d]) with ((c :: init) ++ [d]).
  now rewrite !endsWithSpace_last.
Qed.

Lemma tpTitle_trimmed (task : row) : endsWithSpace (tpTitle task) = false.
Proof.
  unfold tpTitle, cleanupStrings1, cleanupStrings, orElse. simpl.
  destruct (trim_ends (ToString (prop task "title"))) as [_ H].
  now destruct (trim (ToString (prop task "title"))).
Qed.

(** The line of an entry: for a title that is not empty and stands on one
    line, the block of the task starts with a tab, the dash, a space and
    the title as [tpTitle] gives it. *)
Theorem entry_line (L : Luxon) (task : row) :
  tpTitle task <> [] ->
  forallb (fun c => negb (isLineTerminator c)) (tpTitle task) = true ->
  exists rest,
    taskBlock L task = tabulation ++ lit "- " ++ tpTitle task ++ rest.
Proof.
  intros Hne Hline. unfold taskBlock.
  set (tail := (lit " " ++ tpDefer L task ++ tpDue L task ++ tpDone L task)
               ++ (lit " " ++ tpFlagged task ++ tpRepeat task ++ tpTags task)
               ++ newline ++ indentString (tpNote task) 1 tabulation).
  assert (Hend : endsWithSpace (tpTitle task) = false).
  { apply tpTitle_trimmed. }
  assert (Heach : trim (newline ++ lit "- " ++ tpTitle task ++ tail)
                  = (45 :: 32 :: tpTitle task) ++ trimEnd tail).
  { unfold trim, trimStart. simpl.
    change (45 :: 32 :: tpTitle task ++ tail)
      with ((45 :: 32 :: tpTitle task) ++ tail).
    apply trimEnd_app_keep; [discriminate|].
    rewrite !endsWithSpace_cons; [exact Hend|exact Hne|discriminate]. }
  rewrite Heach. exists (indentFrom tabulation false (trimEnd tail)).
  unfold indentString. simpl.
  change (32 :: tpTitle task ++ trimEnd tail)
    with ((32 :: tpTitle task) ++ trimEnd tail).
  rewrite indentFrom_inline; [reflexivity|].
  simpl. exact Hline.
Qed.

Lemma entry_line_witness :
  exists rest,
    taskBlock luxonTokyo rentTask
    = tabulation ++ lit "- " ++ tpTitle rentTask ++ rest.
Proof.
  apply (entry_line luxonTokyo rentTask); [discriminate|reflexivity].
Defined.

(** ** More on the note *)

Lemma split_nonempty (sep : codeunit) (s : jsstring) : split sep s <> [].
Proof.
  destruct s as [|c t]; simpl; [discriminate|].
  destruct (c =? sep); [discriminate|].
  destruct (split sep t); discriminate.
Qed.

(** Cutting a string at a separator and joining the pieces with it gives
    the string back. *)
Lemma join_split (sep : codeunit) (s : jsstring) :
  join [sep] (split sep s) = s.
Proof.
  induction s as [|c t IH]; [reflexivity|]. simpl.
  destruct (N.eqb_spec c sep) as [->|Hc].
  - destruct (split sep t) as [|w ws] eqn:E.
    + exfalso. now apply (split_nonempty sep t).
    + change (join [sep] ([] :: w :: ws))
        with ([] ++ [sep] ++ join [sep] (w :: ws)).
      now rewrite IH.
  - destruct (split sep t) as [|w ws] eqn:E.
    + exfalso. now apply (split_nonempty sep t).
    + rewrite <- IH. destruct ws; reflexivity.
Qed.

Lemma split_app_sep (sep : codeunit) (x s : jsstring) :
  ~ In sep x -> split sep (x ++ sep :: s) = x :: split sep s.
Proof.
  induction x as [|c x IH]; simpl; intros H.
  - now rewrite N.eqb_refl.
  - destruct (N.eqb_spec c sep) as [->|Hc]; [exfalso; apply H; now left|].
    rewrite IH; [reflexivity|]. intros Hin. apply H. now right.
Qed.

(** Joining pieces that do not hold the separator and cutting at it gives
    the pieces back. *)
Lemma split_join (sep : codeunit) (pieces : list jsstring) :
  pieces <> [] -> Forall (fun w => ~ In sep w) pieces ->
  split sep (join [sep] pieces) = pieces.
Proof.
  induction pieces as [|x rest IH]; [contradiction|].
  intros _ Hall. inversion Hall as [|? ? Hx Hrest]; subst.
  destruct rest as [|y rest].
  - simpl. now apply split_single.
  - change (join [sep] (x :: y :: rest))
      with (x ++ sep :: join [sep] (y :: rest)).
    rewrite split_app_sep by exact Hx.
    f_equal. apply IH; [discriminate|exact Hrest].
Qed.

Lemma stripBullets_suffix (line : jsstring) (c : codeunit) :
  In c (stripBullets line) -> In c line.
Proof.
  unfold stripBullets, replaceLeading.
  destruct line as [|x rest]; [auto|].
  destruct (x =? 45).
  - destruct rest as [|y rest]; [intros []|].
    destruct (y =? blackSmallSquare).
    + intros H. right. now right.
    + intros H. now right.
  - destruct (x =? blackSmallSquare); [intros H; now right|auto].
Qed.

Lemma tpNote_string (item : row) (content : jsstring) :
  prop item "content" = str content -> content <> [] ->
  tpNote item = join newline (map stripBullets (split 10 (trim content))).
Proof.
  intros Hc Hne. unfold tpNote. rewrite Hc, cleanupStrings1_string.
  destruct content; [contradiction|reflexivity].
Qed.

(** The note keeps its lines: the lines of the encoded note are the lines
    of the trimmed note, each without its markers, as many as before; and a
    note in which no line starts with a marker comes out as its trimmed
    text. *)
Theorem tpNote_keeps_lines (item : row) (content : jsstring) :
  prop item "content" = str content -> content <> [] ->
  split 10 (tpNote item) = map stripBullets (split 10 (trim content))
  /\ List.length (split 10 (tpNote item))
     = List.length (split 10 (trim content))
  /\ (Forall (fun line => stripBullets line = line) (split 10 (trim content))
      -> tpNote item = trim content).
Proof.
  intros Hc Hne. rewrite (tpNote_string item content Hc Hne).
  assert (Hsplit : split 10 (join newline
                                (map stripBullets (split 10 (trim content))))
                   = map stripBullets (split 10 (trim content))).
  { apply split_join.
    - destruct (split 10 (trim content)) eqn:E; [|discriminate].
      exfalso. now apply (split_nonempty 10 (trim content)).
    - apply Forall_forall. intros w Hw.
      apply in_map_iff in Hw as [line [<- Hline]].
      intros Hin. apply stripBullets_suffix in Hin.
      now apply (split_no_separator 10 (trim content) line). }
  split; [exact Hsplit|]. split.
  - rewrite Hsplit. apply length_map.
  - intros Hplain.
    replace (map stripBullets (split 10 (trim content)))
      with (split 10 (trim content)).
    + apply join_split.
    + clear - Hplain. induction Hplain as [|l ls Hl _ IH]; [reflexivity|].
      simpl. now rewrite Hl, <- IH.
Qed.

Lemma tpNote_keeps_lines_witness :
  List.length (split 10 (tpNote landlordNote))
  = List.length (split 10 (trim (lit "- call landlord"))).
Proof.
  apply (tpNote_keeps_lines landlordNote (lit "- call landlord"));
    [reflexivity|discriminate].
Defined.

(** ** The entry point *)

Lemma in_error_list (a b c : bool) (k : errorKey) :
  In k ((if a then [path] else []) ++ (if b then [] else [extension])
        ++ (if c then [format] else []))
  <-> (k = path /\ a = true) \/ (k = extension /\ b = false)
      \/ (k = format /\ c = true).
Proof.
  destruct a, b, c; simpl; intuition (subst; auto; try discriminate).
Qed.

(** No error ends the run.  A failed read and a wrong extension are
    reported and the conversion is tried all the same: the text on the
    clipboard, and the exception if there is one, depend on the content
    alone, not on the name of the file or on the failure of the read.  The
    errors come in the order path, extension, format; the first is reported
    exactly for a failed read, the second exactly for a name whose
    extension is not [.csv]. *)
Theorem readFileCallback_goes_on (L : Luxon)
  (extname : jsstring -> jsstring)
  (fromString : list jsstring -> value -> result (option (list row)))
  (file file' : jsstring) (err err' : bool) (data : value) :
  clipboard (readFileCallback L extname fromString file err data)
  = clipboard (readFileCallback L extname fromString file' err' data)
  /\ exception (readFileCallback L extname fromString file err data)
     = exception (readFileCallback L extname fromString file' err' data)
  /\ (exists formatError : bool,
         errorsReported (readFileCallback L extname fromString file err data)
         = (if err then [path] else [])
           ++ (if eqbs (extname file) (lit ".csv") then [] else [extension])
           ++ (if formatError then [format] else []))
  /\ (In path
        (errorsReported (readFileCallback L extname fromString file err data))
      <-> err = true)
  /\ (In extension
        (errorsReported (readFileCallback L extname fromString file err data))
      <-> extname file <> lit ".csv").
Proof.
  unfold readFileCallback.
  assert (Hshape : exists formatError : bool,
             errorsReported
               match convertCsvToJson fromString data with
               | Ok (Some result) =>
                   {| errorsReported :=
                        ((if err then [path] else [])
                         ++ (if eqbs (extname file) (lit ".csv")
                             then [] else [extension]))
                        ++ reported (parseJson L result);
                      clipboard :=
                        match copied (parseJson L result) with
                        | Ok text => Some text
                        | Throw _ => None
                        end;
                      exception :=
                        match copied (parseJson L result) with
                        | Ok _ => None
                        | Throw e => Some e
                        end |}
               | Ok None =>
                   {| errorsReported :=
                        (if err then [path] else [])
                        ++ (if eqbs (extname file) (lit ".csv")
                            then [] else [extension]);
                      clipboard := None; exception := None |}
               | Throw e =>
                   {| errorsReported :=
                        (if err then [path] else [])
                        ++ (if eqbs (extname file) (lit ".csv")
                            then [] else [extension]);
                      clipboard := None; exception := Some e |}
               end
             = (if err then [path] else [])
               ++ (if eqbs (extname file) (lit ".csv") then [] else [extension])
               ++ (if formatError then [format] else [])).
  { destruct (convertCsvToJson fromString data) as [[result|]|e]; simpl.
    - exists (headerRowIndex result <? 0)%Z. now rewrite <- app_assoc.
    - exists false. now rewrite app_nil_r.
    - exists false. now rewrite app_nil_r. }
  split; [|split; [|split; [exact Hshape|]]].
  - now destruct (convertCsvToJson fromString data) as [[result|]|e].
  - now destruct (convertCsvToJson fromString data) as [[result|]|e].
  - destruct Hshape as [formatError ->]. rewrite !in_error_list. split.
    + split; [intros [[_ H]|[[H _]|[H _]]]; [exact H|discriminate H..]|].
      intros H. left. now split.
    + split.
      * intros [[H _]|[[_ H]|[H _]]]; [discriminate H| |discriminate H].
        now apply eqbs_neq.
      * intros H. right. left. split; [reflexivity|now apply eqbs_neq].
Qed.

(** ** The flag and the priority tag *)

Lemma tpFlagged_positive (item : row) :
  tpFlagged item = lit " @flagged" ->
  exists p, prop item "priority" = str p /\ StringToNumber p = Positive.
Proof.
  unfold tpFlagged, greaterThanZero, ToNumber.
  destruct (prop item "priority") as [| |p]; try discriminate.
  destruct (StringToNumber p) eqn:E; try discriminate.
  intros _. now exists p.
Qed.

(** A flagged entry carries its priority in its tags: when [tpFlagged]
    writes the flag, the priority cell is a string that is not empty and
    [tpTags] writes a fragment that ends with [priority-] and that cell. *)
Theorem flagged_has_priority_tag (item : row) :
  tpFlagged item = lit " @flagged" ->
  exists priority before,
    prop item "priority" = str priority
    /\ priority <> []
    /\ tpTags item
       = lit " @tags(" ++ before ++ lit "priority-" ++ priority ++ lit ")".
Proof.
  intros Hflag. apply tpFlagged_positive in Hflag as [p [Hp Hpos]].
  assert (Hne : p <> []).
  { intros ->. vm_compute in Hpos. discriminate Hpos. }
  exists p, (trim (ToString (prop item "tags"))
             ++ (if isEmpty (trim (ToString (prop item "tags"))) then []
                 else lit ", ")).
  split; [exact Hp|]. split; [exact Hne|].
  rewrite (tpTags_with_priority item p Hp Hne).
  now rewrite <- !app_assoc.
Qed.

Lemma flagged_has_priority_tag_witness :
  exists priority before,
    prop rentTask "priority" = str priority
    /\ priority <> []
    /\ tpTags rentTask
       = lit " @tags(" ++ before ++ lit "priority-" ++ priority ++ lit ")".
Proof.
  apply (flagged_has_priority_tag rentTask). reflexivity.
Defined.
